(** * Error propagation through coroutine frames: [result<T>] and [promise<T>]

    A shallow embedding of [src/main.cpp].  The two class templates
    [result<T>] (the carrier, also the awaiter of [co_await]) and
    [promise<T>] (the frame controller) are translated member by member.
    The part of the C++ coroutine machinery they rely on (what [co_await],
    [co_return], an escaping exception and [coroutine_handle::destroy] do)
    is written out as an interpreter, [resume], over coroutine bodies.

    The templates are instantiated at several payload types in one
    program ([FILE*], [std::string]); the model uses one type [T] for all
    payloads in play and passes the value-initialised payload of a frame,
    [T_init], where its promise is constructed.  Automatic objects are the
    locals of the function body's outermost scope. *)

From stdpp Require Import gmap list strings.
From Stdlib Require Import ZArith.

(** ** [std::expected<T, uint64_t>] *)

(** An error code is a [uint64_t]: an integer in [0, 2^64).  The class
    templates only copy codes; the one place a code is made from a wider
    or signed integer ([std::unexpected(errno)]) converts modulo 2^64. *)
Definition uint64_of (z : Z) : Z := z `mod` 2 ^ 64.

Inductive expected (T : Type) : Type :=
| Value (v : T)
| Unexpected (e : Z).
Arguments Value {T} v.
Arguments Unexpected {T} e.

(** Result of an accessor that may throw or have no defined behaviour. *)
Inductive access (A : Type) : Type :=
| Got (a : A)
| BadExpectedAccess
| NoBehaviour.
Arguments Got {A} a.
Arguments BadExpectedAccess {A}.
Arguments NoBehaviour {A}.

Definition has_value {T} (x : expected T) : bool :=
  match x with Value _ => true | Unexpected _ => false end.

(** [expected::value()]: throws [std::bad_expected_access] on an error. *)
Definition expected_value {T} (x : expected T) : access T :=
  match x with Value v => Got v | Unexpected _ => BadExpectedAccess end.

(** [expected::operator*]: the precondition is [has_value()]. *)
Definition expected_deref {T} (x : expected T) : access T :=
  match x with Value v => Got v | Unexpected _ => NoBehaviour end.

(** [expected::error()]: the precondition is [!has_value()]. *)
Definition expected_error {T} (x : expected T) : access Z :=
  match x with Value _ => NoBehaviour | Unexpected e => Got e end.

(** ** The shared store

    [std::shared_ptr<std::expected<T, uint64_t>>] is an address into a
    store of cells; a [promise] and every [result] made from it hold the
    same address.  Cells are never reclaimed in the model (reference
    counts are not tracked). *)
Definition addr := nat.
Definition resource := nat.
Definition marker := nat.

Record result := mk_result { result_value_ : addr }.
Record promise := mk_promise { promise_value_ : addr }.

(** What a run does, in the order it does it.  A frame is named by the
    address of its promise's cell. *)
Inductive event (T : Type) : Type :=
| EvAlloc (a : addr)
| EvWrite (a : addr) (x : expected T)
| EvConstruct (f : addr) (x : resource)
| EvRelease (f : addr) (x : resource)
| EvMark (f : addr) (m : marker)
| EvDestroy (f : addr).
Arguments EvAlloc {T} a.
Arguments EvWrite {T} a x.
Arguments EvConstruct {T} f x.
Arguments EvRelease {T} f x.
Arguments EvMark {T} f m.
Arguments EvDestroy {T} f.

Inductive suspend_never : Type := std_suspend_never.

(** ** [promise<T>] *)
Module Promise.

(** [promise()]: [std::make_shared<std::expected<T, uint64_t>>()].  The
    new cell is value-initialised: a default-constructed [expected]
    holds a value-initialised [T], here [T_init]. *)
Definition ctor {T} (T_init : T) (h : gmap addr (expected T))
  : promise * gmap addr (expected T) * list (event T) :=
  let a := fresh (dom h) in
  (mk_promise a, <[a := Value T_init]> h, [EvAlloc a]).

Definition get_return_object (p : promise) : result :=
  mk_result (promise_value_ p).

Definition initial_suspend (p : promise) : suspend_never := std_suspend_never.

Definition final_suspend (p : promise) : suspend_never := std_suspend_never.

Definition unhandled_exception {T} (p : promise) (h : gmap addr (expected T))
  : gmap addr (expected T) * list (event T) :=
  (h, []).

(** [*value_ = value;] *)
Definition return_value {T} (p : promise) (value : expected T)
    (h : gmap addr (expected T))
  : gmap addr (expected T) * list (event T) :=
  (<[promise_value_ p := value]> h, [EvWrite (promise_value_ p) value]).

End Promise.

(** ** Coroutine frames and handles

    A frame holds its promise and the automatic objects constructed so far
    and still alive, newest first.  A [coroutine_handle] refers to one
    frame; frames are passed explicitly. *)
Record coroutine_handle := mk_handle {
  handle_promise : promise;
  handle_locals : list resource
}.

Definition frame_id (handle : coroutine_handle) : addr :=
  promise_value_ (handle_promise handle).

(** Leaving the scope of the body: the automatic objects are destroyed in
    the reverse order of their construction. *)
Definition release_locals {T} (handle : coroutine_handle) : list (event T) :=
  EvRelease (frame_id handle) <$> handle_locals handle.

(** [handle.destroy()] on a suspended coroutine: the automatic objects in
    scope at the suspension point are destroyed, newest first, then the
    promise and the frame itself. *)
Definition handle_destroy {T} (handle : coroutine_handle) : list (event T) :=
  release_locals handle ++ [EvDestroy (frame_id handle)].

(** ** [result<T>] *)
Module Result.

(** [return **value_;] *)
Definition await_resume {T} (r : result) (h : gmap addr (expected T)) : access T :=
  match h !! result_value_ r with
  | Some x => expected_deref x
  | None => NoBehaviour
  end.

(** Returns the answer ([true]: stay suspended, control goes back to the
    caller), the store and the events; [None] when [value_] dangles. *)
Definition await_suspend {T} (r : result) (handle : coroutine_handle)
    (h : gmap addr (expected T))
  : option (bool * gmap addr (expected T) * list (event T)) :=
  match h !! result_value_ r with
  | None => None
  | Some x =>
      if negb (has_value x) then
        let promise := handle_promise handle in
        match expected_error x with
        | Got e =>
            let '(h1, evs1) := Promise.return_value promise (Unexpected e) h in
            let evs2 := handle_destroy handle in
            Some (true, h1, evs1 ++ evs2)
        | _ => None
        end
      else Some (false, h, [])
  end.

Definition await_ready (r : result) : bool := false.

Definition operator_bool {T} (r : result) (h : gmap addr (expected T)) : option bool :=
  has_value <$> h !! result_value_ r.

Definition operator_deref {T} (r : result) (h : gmap addr (expected T)) : access T :=
  match h !! result_value_ r with
  | Some x => expected_value x
  | None => NoBehaviour
  end.

Definition error {T} (r : result) (h : gmap addr (expected T)) : access Z :=
  match h !! result_value_ r with
  | Some x => expected_error x
  | None => NoBehaviour
  end.

End Result.

(** ** Coroutine bodies

    The body of a function returning [result<T>], in continuation form.
    Every path ends in a [co_return] or leaves by an exception; a path
    suspended by [co_await] may never be continued. *)
Inductive coro (T : Type) : Type :=
| co_return (x : expected T)
| co_await (r : result) (k : T -> coro T)
| invoke (T_init : T) (callee : coro T) (k : result -> coro T)
| automatic (x : resource) (k : coro T)
| effect (m : marker) (k : coro T)
| inspect (r : result) (k : expected T -> coro T)
| throw.
Arguments co_return {T} x.
Arguments co_await {T} r k.
Arguments invoke {T} T_init callee k.
Arguments automatic {T} x k.
Arguments effect {T} m k.
Arguments inspect {T} r k.
Arguments throw {T}.

(** How the run of a body in its frame ends. *)
Inductive outcome (T : Type) : Type :=
| Returned (x : expected T)
| Suspended
| Faulted
| Undefined.
Arguments Returned {T} x.
Arguments Suspended {T}.
Arguments Faulted {T}.
Arguments Undefined {T}.

Inductive terminal : Type :=
| CompletedWithValue
| CompletedWithError
| DestroyedOnPropagatedError.

Definition terminal_of {T} (o : outcome T) : option terminal :=
  match o with
  | Returned (Value _) => Some CompletedWithValue
  | Returned (Unexpected _) => Some CompletedWithError
  | Suspended => Some DestroyedOnPropagatedError
  | Faulted | Undefined => None
  end.

(** The guarded use of a carrier: test it, then dereference it on the
    true branch or read its error on the false branch. *)
Definition observe {T} (r : result) (h : gmap addr (expected T)) : option (expected T) :=
  match Result.operator_bool r h with
  | Some true =>
      match Result.operator_deref r h with Got v => Some (Value v) | _ => None end
  | Some false =>
      match Result.error r h with Got e => Some (Unexpected e) | _ => None end
  | None => None
  end.

(** Runs a body in the frame behind [handle] until the frame is over or
    control goes back to the caller for good. *)
Fixpoint resume {T} (c : coro T) (handle : coroutine_handle)
    (h : gmap addr (expected T))
  : outcome T * gmap addr (expected T) * list (event T) :=
  match c with
  | co_return x =>
      let '(h1, evs1) := Promise.return_value (handle_promise handle) x h in
      match Promise.final_suspend (handle_promise handle) with
      | std_suspend_never => (Returned x, h1, evs1 ++ handle_destroy handle)
      end
  | co_await r k =>
      if Result.await_ready r then
        match Result.await_resume r h with
        | Got v => resume (k v) handle h
        | _ => (Undefined, h, [])
        end
      else
        match Result.await_suspend r handle h with
        | None => (Undefined, h, [])
        | Some (true, h1, evs1) => (Suspended, h1, evs1)
        | Some (false, h1, evs1) =>
            match Result.await_resume r h1 with
            | Got v =>
                let '(o, h2, evs2) := resume (k v) handle h1 in
                (o, h2, evs1 ++ evs2)
            | _ => (Undefined, h1, evs1)
            end
        end
  | invoke T_init callee k =>
      let '(p, h1, evs1) := Promise.ctor T_init h in
      let r := Promise.get_return_object p in
      match Promise.initial_suspend p with
      | std_suspend_never =>
          let '(o, h2, evs2) := resume callee (mk_handle p []) h1 in
          match o with
          | Undefined => (Undefined, h2, evs1 ++ evs2)
          | _ =>
              let '(o3, h3, evs3) := resume (k r) handle h2 in
              (o3, h3, evs1 ++ evs2 ++ evs3)
          end
      end
  | automatic x k =>
      let '(o, h1, evs) :=
        resume k (mk_handle (handle_promise handle) (x :: handle_locals handle)) h in
      (o, h1, EvConstruct (frame_id handle) x :: evs)
  | effect m k =>
      let '(o, h1, evs) := resume k handle h in
      (o, h1, EvMark (frame_id handle) m :: evs)
  | inspect r k =>
      match observe r h with
      | Some x => resume (k x) handle h
      | None => (Undefined, h, [])
      end
  | throw =>
      let '(h1, evs1) := Promise.unhandled_exception (handle_promise handle) h in
      match Promise.final_suspend (handle_promise handle) with
      | std_suspend_never => (Faulted, h1, evs1 ++ handle_destroy handle)
      end
  end.

(** A call from ordinary code: the promise is made, the return object is
    taken from it, the body runs at once, and the caller gets the carrier
    when the body is over or suspended. *)
Definition call {T} (T_init : T) (body : coro T) (h : gmap addr (expected T))
  : result * outcome T * gmap addr (expected T) * list (event T) :=
  let '(p, h1, evs1) := Promise.ctor T_init h in
  let r := Promise.get_return_object p in
  match Promise.initial_suspend p with
  | std_suspend_never =>
      let '(o, h2, evs2) := resume body (mk_handle p []) h1 in
      (r, o, h2, evs1 ++ evs2)
  end.

(** ** Reading a run's events *)

(** The cell or frame an event is about. *)
Definition subject {T} (ev : event T) : addr :=
  match ev with
  | EvAlloc a | EvWrite a _ => a
  | EvConstruct f _ | EvRelease f _ | EvMark f _ | EvDestroy f => f
  end.

(** The values written to cell [a], oldest first. *)
Definition writes_to {T} (a : addr) (evs : list (event T)) : list (expected T) :=
  omap (λ ev, match ev with
              | EvWrite b x => if decide (b = a) then Some x else None
              | _ => None
              end) evs.

(** The automatic objects frame [f] constructed, oldest first. *)
Definition constructed_in {T} (f : addr) (evs : list (event T)) : list resource :=
  omap (λ ev, match ev with
              | EvConstruct g x => if decide (g = f) then Some x else None
              | _ => None
              end) evs.

(** The automatic objects frame [f] released, in the order of release. *)
Definition released_in {T} (f : addr) (evs : list (event T)) : list resource :=
  omap (λ ev, match ev with
              | EvRelease g x => if decide (g = f) then Some x else None
              | _ => None
              end) evs.

(** The markers frame [f] touched. *)
Definition marks_in {T} (f : addr) (evs : list (event T)) : list marker :=
  omap (λ ev, match ev with
              | EvMark g m => if decide (g = f) then Some m else None
              | _ => None
              end) evs.

(** Events that end frame [b] or fix its cell. *)
Definition finalising {T} (b : addr) (ev : event T) : bool :=
  match ev with
  | EvWrite a _ | EvRelease a _ | EvDestroy a => bool_decide (a = b)
  | _ => false
  end.

(** What destroying the frame emits once the events [pre] of its body
    have happened: the automatic objects alive on entry and those
    constructed in [pre] are released, newest first. *)
Definition closes {T} (handle : coroutine_handle) (pre : list (event T))
  : list (event T) :=
  handle_destroy
    (mk_handle (handle_promise handle)
       (reverse (constructed_in (frame_id handle) pre) ++ handle_locals handle)).

(** The shape of a run: a body part [pre] with no finalising event of the
    frame, then what the outcome adds. *)
Definition own_log {T} (handle : coroutine_handle) (h : gmap addr (expected T))
    (o : outcome T) (h' : gmap addr (expected T)) (evs pre : list (event T)) : Prop :=
  let b := frame_id handle in
  match o with
  | Returned x =>
      evs = pre ++ EvWrite b x :: closes handle pre ∧ h' !! b = Some x
  | Suspended =>
      ∃ e, evs = pre ++ EvWrite b (Unexpected e) :: closes handle pre
           ∧ h' !! b = Some (Unexpected e)
  | Faulted => evs = pre ++ closes handle pre ∧ h' !! b = h !! b
  | Undefined => evs = pre ∧ h' !! b = h !! b
  end.

(** The states a cell could be in according to the specification's data
    model, read off the store. *)
Definition holds_value {T} (h : gmap addr (expected T)) (a : addr) : Prop :=
  ∃ v, h !! a = Some (Value v).

Definition holds_error {T} (h : gmap addr (expected T)) (a : addr) : Prop :=
  ∃ e, h !! a = Some (Unexpected e).

Definition unset {T} (h : gmap addr (expected T)) (a : addr) : Prop :=
  ¬ holds_value h a ∧ ¬ holds_error h a.

(** ** The read loop of [read_from_file]

    [for (auto size = 0; (size = fread(buffer, sizeof( *buffer),
    sizeof(buffer), file)) > 0;) target.append(buffer, buffer + size);]
    over a script of what the successive [fread] calls store at the start
    of [buffer]; a call past the end of the script stores nothing. *)
Module ReadLoop.

Definition sizeof_buffer : nat := 4096.

(** One [fread]: [chunk] overwrites the start of [buffer], the rest of
    [buffer] keeps what it held; the return value is the number of
    bytes stored. *)
Definition fread_into (buffer chunk : string) : string * nat :=
  (chunk +:+ String.substring (String.length chunk)
               (sizeof_buffer - String.length chunk) buffer,
   String.length chunk).

(** Returns [target] and [buffer] as the loop leaves them. *)
Fixpoint read_loop (script : list string) (buffer target : string) : string * string :=
  match script with
  | [] => (target, buffer)
  | chunk :: script =>
      let '(buffer1, size) := fread_into buffer chunk in
      if bool_decide (0 < size) then
        read_loop script buffer1 (target +:+ String.substring 0 size buffer1)
      else (target, buffer1)
  end.

(** The chunks stored before the first [fread] that stores nothing. *)
Fixpoint until_empty (script : list string) : list string :=
  match script with
  | [] => []
  | chunk :: script =>
      if bool_decide (0 < String.length chunk) then chunk :: until_empty script
      else []
  end.

End ReadLoop.

(** ** A usage example from the repository

    [open_file], [read_from_file] and [main], over a description of what
    the C library calls answer: [fopen] gives a stream or fails and sets
    [errno]; [fread] is the script of what the successive calls on a
    stream store; [ferror] is the stream's error indicator after the
    loop; [buffer] is what the uninitialised array holds before the first
    [fread]. *)
Module Demo.

Inductive value : Type :=
| VFile (file : Z)
| VString (s : string).

Definition as_file (v : value) : Z :=
  match v with VFile f => f | VString _ => 0%Z end.

Record world := mk_world {
  fopen : string -> string -> option Z;
  errno : Z;
  fread : Z -> list string;
  ferror : Z -> Z;
  buffer : string
}.

(** The value-initialised [FILE*] and [std::string]. *)
Definition nullptr : value := VFile 0.
Definition empty_string : value := VString "".

Definition open_file (w : world) (file_name mode : string) : coro value :=
  match fopen w file_name mode with
  | Some file => co_return (Value (VFile file))
  | None => co_return (Unexpected (uint64_of (errno w)))
  end.

Definition target : resource := 0.

Definition read_from_file (w : world) (file_name : string) : coro value :=
  invoke nullptr (open_file w file_name "r") (λ awaited,
  co_await awaited (λ file,
  automatic target (
  let target_value :=
    (ReadLoop.read_loop (fread w (as_file file)) (buffer w) "").1 in
  let error := ferror w (as_file file) in
  if decide (error = 0%Z) then co_return (Value (VString target_value))
  else co_return (Unexpected (uint64_of error))))).

(** What [main] prints: the content, or the error code. *)
Definition main (w : world) : option (expected value) :=
  let '(result, _, h, _) :=
    call empty_string (read_from_file w "existing_file.txt") ∅ in
  observe result h.

Definition missing : world :=
  {| fopen := λ _ _, None; errno := 2; fread := λ _, []; ferror := λ _, 0%Z;
     buffer := "" |}.

Definition present : world :=
  {| fopen := λ _ _, Some 7%Z; errno := 0;
     fread := λ _, ["ab"; "c"]; ferror := λ _, 0%Z; buffer := "??" |}.

Definition unreadable : world :=
  {| fopen := λ _ _, Some 7%Z; errno := 0;
     fread := λ _, ["a"]; ferror := λ _, 5%Z; buffer := "??" |}.

(** A stream whose second [fread] stores nothing although more would
    follow. *)
Definition interrupted : world :=
  {| fopen := λ _ _, Some 7%Z; errno := 0;
     fread := λ _, ["ab"; ""; "c"]; ferror := λ _, 0%Z; buffer := "??" |}.

End Demo.

(** ** More readers of a run's events *)

(** How many times frame [f] is destroyed. *)
Definition destroyed_in {T} (f : addr) (evs : list (event T)) : nat :=
  length (omap (λ ev, match ev with
                      | EvDestroy g => if decide (g = f) then Some () else None
                      | _ => None
                      end) evs).

(** ** Bodies that use only carriers they were handed

    [live D c]: every carrier the body [c] awaits or inspects refers to a
    cell in [D] or is the return object of a call the body made itself. *)
Inductive live {T} : gset addr → coro T → Prop :=
| live_co_return D x : live D (co_return x)
| live_co_await D r k :
    result_value_ r ∈ D → (∀ v, live D (k v)) → live D (co_await r k)
| live_invoke D T_init callee k :
    live D callee → (∀ r, live (D ∪ {[result_value_ r]}) (k r)) →
    live D (invoke T_init callee k)
| live_automatic D x k : live D k → live D (automatic x k)
| live_effect D m k : live D k → live D (effect m k)
| live_inspect D r k :
    result_value_ r ∈ D → (∀ x, live D (k x)) → live D (inspect r k)
| live_throw D : live D throw.

(** ** Forwarding

    The shape of [read_from_file]'s first statement: call a function and
    await its carrier on the spot, [auto v = co_await f(...);]. *)
Definition await_call {T} (T_init : T) (callee : coro T) (k : T → coro T) : coro T :=
  invoke T_init callee (λ awaited, co_await awaited k).

(** A stack of functions, each of which awaits a call of the next and
    returns what it got; [inits] gives the value-initialised payload of
    each callee's frame, outermost callee first, and [leaf] is the body
    of the innermost one. *)
Fixpoint chain {T} (inits : list T) (leaf : coro T) : coro T :=
  match inits with
  | [] => leaf
  | T_init :: inits =>
      await_call T_init (chain inits leaf) (λ v, co_return (Value v))
  end.

(** Closes a goal whose hypothesis [H] finds an allocation among the
    events of a write, of releases or of a destruction. *)
Ltac no_alloc H :=
  exfalso;
  repeat first
    [ apply elem_of_nil in H; destruct H
    | apply list_elem_of_singleton in H; discriminate H
    | apply list_elem_of_fmap in H as (? & H & _); discriminate H
    | apply elem_of_cons in H as [H|H]; [discriminate H|]
    | apply elem_of_app in H as [H|H] ].

Ltac other_subject :=
  match goal with
  | H : _ ≠ frame_id _ |- _ => unfold frame_id in H; simpl in H |- *; congruence
  | _ => simpl; congruence
  end.

(** ** The usage example, run *)

Example main_missing : Demo.main Demo.missing = Some (Unexpected 2).
Proof. vm_compute. reflexivity. Qed.

Example main_present :
  Demo.main Demo.present = Some (Value (Demo.VString "abc")).
Proof. vm_compute. reflexivity. Qed.

Example main_unreadable : Demo.main Demo.unreadable = Some (Unexpected 5).
Proof. vm_compute. reflexivity. Qed.

Example main_interrupted :
  Demo.main Demo.interrupted = Some (Value (Demo.VString "ab")).
Proof. vm_compute. reflexivity. Qed.

(** With no file to open, [read_from_file] is destroyed at its await: the
    log has the callee's frame, the forwarded write and the destruction,
    and [target] is never constructed. *)
Example read_from_file_missing_log :
  call Demo.empty_string (Demo.read_from_file Demo.missing "existing_file.txt") ∅
  = (mk_result 0, Suspended,
     {[0 := Unexpected 2%Z; 1 := Unexpected 2%Z]},
     [EvAlloc 0; EvAlloc 1; EvWrite 1 (Unexpected 2%Z); EvDestroy 1;
      EvWrite 0 (Unexpected 2%Z); EvDestroy 0]).
Proof. vm_compute. reflexivity. Qed.

Example read_from_file_present_log :
  (call Demo.empty_string (Demo.read_from_file Demo.present "existing_file.txt") ∅).2
  = [EvAlloc 0; EvAlloc 1; EvWrite 1 (Value (Demo.VFile 7)); EvDestroy 1;
     EvConstruct 0 Demo.target; EvWrite 0 (Value (Demo.VString "abc"));
     EvRelease 0 Demo.target; EvDestroy 0].
Proof. vm_compute. reflexivity. Qed.

(** ** Basic facts about the members *)

Lemma ctor_fresh {T} (T_init : T) (h : gmap addr (expected T)) p h1 evs :
  Promise.ctor T_init h = (p, h1, evs) →
  (promise_value_ p ∉ dom h) ∧ h1 = <[promise_value_ p := Value T_init]> h
  ∧ evs = [EvAlloc (promise_value_ p)].
Proof.
  unfold Promise.ctor. intros [= <- <- <-]. simpl.
  split; [apply is_fresh | done].
Qed.

Lemma await_suspend_error {T} r handle (h : gmap addr (expected T)) e :
  h !! result_value_ r = Some (Unexpected e) →
  Result.await_suspend r handle h
  = Some (true, <[frame_id handle := Unexpected e]> h,
          EvWrite (frame_id handle) (Unexpected e) :: handle_destroy handle).
Proof. unfold Result.await_suspend. by intros ->. Qed.

Lemma await_suspend_value {T} r handle (h : gmap addr (expected T)) v :
  h !! result_value_ r = Some (Value v) →
  Result.await_suspend r handle h = Some (false, h, []).
Proof. unfold Result.await_suspend. by intros ->. Qed.

Lemma await_resume_value {T} r (h : gmap addr (expected T)) v :
  h !! result_value_ r = Some (Value v) → Result.await_resume r h = Got v.
Proof. unfold Result.await_resume. by intros ->. Qed.

Lemma observe_Some {T} r (h : gmap addr (expected T)) x :
  observe r h = Some x ↔ h !! result_value_ r = Some x.
Proof.
  unfold observe, Result.operator_bool, Result.operator_deref, Result.error.
  destruct (h !! result_value_ r) as [[v|e]|]; simpl; naive_solver.
Qed.

(** The equations of [resume] at an await point. *)
Lemma resume_await_error {T} r k handle (h : gmap addr (expected T)) e :
  h !! result_value_ r = Some (Unexpected e) →
  resume (co_await r k) handle h
  = (Suspended, <[frame_id handle := Unexpected e]> h,
     EvWrite (frame_id handle) (Unexpected e) :: handle_destroy handle).
Proof. intros Hr. simpl. by rewrite (await_suspend_error _ _ _ _ Hr). Qed.

Lemma resume_await_value {T} r k handle (h : gmap addr (expected T)) v :
  h !! result_value_ r = Some (Value v) →
  resume (co_await r k) handle h = resume (k v) handle h.
Proof.
  intros Hr. simpl.
  rewrite (await_suspend_value _ _ _ _ Hr), (await_resume_value _ _ _ Hr).
  by destruct (resume (k v) handle h) as [[o h2] evs2].
Qed.

Lemma resume_await_dangling {T} r k handle (h : gmap addr (expected T)) :
  h !! result_value_ r = None →
  resume (co_await r k) handle h = (Undefined, h, []).
Proof. intros Hr. simpl. unfold Result.await_suspend. by rewrite Hr. Qed.

(** ** Events of other frames

    A run only touches the cell of its own frame and cells it allocates
    itself; every event it emits is about one of those. *)
Lemma Forall_subject_destroy {T} handle b :
  b ≠ frame_id handle →
  Forall (λ ev : event T, subject ev ≠ b) (handle_destroy handle).
Proof.
  intros Hb. unfold handle_destroy, release_locals.
  apply Forall_app. split.
  - apply Forall_fmap, Forall_true. intros x. other_subject.
  - repeat constructor. other_subject.
Qed.

Lemma resume_foreign {T} (c : coro T) :
  ∀ handle (h : gmap addr (expected T)) o h' evs,
    resume c handle h = (o, h', evs) →
    dom h ⊆ dom h' ∧
    ∀ b, b ∈ dom h → b ≠ frame_id handle →
         h' !! b = h !! b ∧ Forall (λ ev, subject ev ≠ b) evs.
Proof.
  induction c as [x|r k IH|T_init callee IHc k IHk|x k IH|m k IH|r k IH|];
    intros handle h o h' evs Hrun.
  - simpl in Hrun. injection Hrun as <- <- <-. split.
    + apply dom_insert_subseteq.
    + intros b Hb Hne. split; [by rewrite lookup_insert_ne|].
      constructor; [other_subject | by apply Forall_subject_destroy].
  - destruct (h !! result_value_ r) as [[v|e]|] eqn:Hr.
    + rewrite (resume_await_value _ _ _ _ _ Hr) in Hrun. eauto.
    + rewrite (resume_await_error _ _ _ _ _ Hr) in Hrun.
      injection Hrun as <- <- <-. split.
      * apply dom_insert_subseteq.
      * intros b Hb Hne. split; [by rewrite lookup_insert_ne|].
        constructor; [other_subject | by apply Forall_subject_destroy].
    + rewrite (resume_await_dangling _ _ _ _ Hr) in Hrun.
      injection Hrun as <- <- <-. split; [done|]. intros; split; [done|constructor].
  - simpl in Hrun.
    set (a := fresh (dom h)) in *.
    assert (Ha : a ∉ dom h) by apply is_fresh.
    destruct (resume callee _ _) as [[o2 h2] evs2] eqn:Hcallee.
    apply IHc in Hcallee as [Hdom2 Hfor2].
    assert (Hdom1 : dom h ⊆ dom (<[a := Value T_init]> h)).
    { apply dom_insert_subseteq. }
    assert (Hpre : ∀ b, b ∈ dom h →
              h2 !! b = h !! b ∧ Forall (λ ev : event T, subject ev ≠ b) evs2).
    { intros b Hb. assert (b ≠ a) by (intros ->; done).
      destruct (Hfor2 b) as [Hl Hf]; [by apply Hdom1 | done |].
      split; [|done]. rewrite Hl. by rewrite lookup_insert_ne. }
    assert (Halloc : ∀ b, b ∈ dom h → subject (EvAlloc (T:=T) a) ≠ b).
    { intros b Hb. simpl. intros ->. done. }
    destruct (resume (k _) handle h2) as [[o3 h3] evs3] eqn:Hk.
    apply IHk in Hk as [Hdom3 Hfor3].
    assert (Hgo : (o, h', evs) = (o3, h3, [EvAlloc a] ++ evs2 ++ evs3) →
      dom h ⊆ dom h' ∧ ∀ b, b ∈ dom h → b ≠ frame_id handle →
         h' !! b = h !! b ∧ Forall (λ ev, subject ev ≠ b) evs).
    { intros [= -> -> ->]. split; [by repeat (etrans; [eassumption|])|].
      intros b Hb Hne. destruct (Hpre b Hb) as [Hl2 Hf2].
      destruct (Hfor3 b) as [Hl3 Hf3]; [by apply Hdom2, Hdom1 | done |].
      split; [congruence|].
      constructor; [by apply Halloc|]. apply Forall_app. done. }
    destruct o2; try (symmetry in Hrun; by apply Hgo).
    injection Hrun as <- <- <-. split; [by etrans|]. intros b Hb Hne.
    destruct (Hpre b Hb) as [Hl2 Hf2]. split; [done|].
    constructor; [by apply Halloc | done].
  - simpl in Hrun.
    destruct (resume k _ h) as [[o1 h1] evs1] eqn:Hk.
    injection Hrun as <- <- <-.
    apply IH in Hk as [Hdom Hfor]. split; [done|]. intros b Hb Hne.
    destruct (Hfor b Hb) as [Hl Hf]; [done|]. split; [done|].
    constructor; [other_subject | done].
  - simpl in Hrun.
    destruct (resume k _ h) as [[o1 h1] evs1] eqn:Hk.
    injection Hrun as <- <- <-.
    apply IH in Hk as [Hdom Hfor]. split; [done|]. intros b Hb Hne.
    destruct (Hfor b Hb) as [Hl Hf]; [done|]. split; [done|].
    constructor; [other_subject | done].
  - simpl in Hrun. destruct (observe r h) as [x|].
    + eauto.
    + injection Hrun as <- <- <-. split; [done|]. intros; split; [done|constructor].
  - simpl in Hrun. injection Hrun as <- <- <-. split; [done|].
    intros b Hb Hne. split; [done|]. by apply Forall_subject_destroy.
Qed.

(** ** The events of a frame's own run *)

Lemma constructed_in_app {T} f (evs1 evs2 : list (event T)) :
  constructed_in f (evs1 ++ evs2) = constructed_in f evs1 ++ constructed_in f evs2.
Proof. apply omap_app. Qed.

Lemma writes_to_app {T} a (evs1 evs2 : list (event T)) :
  writes_to a (evs1 ++ evs2) = writes_to a evs1 ++ writes_to a evs2.
Proof. apply omap_app. Qed.

Lemma released_in_app {T} f (evs1 evs2 : list (event T)) :
  released_in f (evs1 ++ evs2) = released_in f evs1 ++ released_in f evs2.
Proof. apply omap_app. Qed.

Lemma marks_in_app {T} f (evs1 evs2 : list (event T)) :
  marks_in f (evs1 ++ evs2) = marks_in f evs1 ++ marks_in f evs2.
Proof. apply omap_app. Qed.

(** Events about other cells say nothing about [b]. *)
Lemma foreign_silent {T} b (evs : list (event T)) :
  Forall (λ ev, subject ev ≠ b) evs →
  constructed_in b evs = [] ∧ Forall (λ ev, finalising b ev = false) evs.
Proof.
  induction 1 as [|ev evs Hev _ [IH1 IH2]]; [by split|].
  split.
  - change (ev :: evs) with ([ev] ++ evs).
    rewrite constructed_in_app, IH1, app_nil_r. unfold constructed_in.
    destruct ev; simpl in *; try done. by rewrite decide_False.
  - constructor; [|done].
    destruct ev; simpl in *; try done; by apply bool_decide_eq_false.
Qed.

Lemma closes_nil {T} handle : closes (T:=T) handle [] = handle_destroy handle.
Proof. by destruct handle. Qed.

Lemma closes_silent {T} handle (evs0 pre : list (event T)) :
  constructed_in (frame_id handle) evs0 = [] →
  closes handle (evs0 ++ pre) = closes handle pre.
Proof. intros H0. unfold closes. by rewrite constructed_in_app, H0. Qed.

Lemma own_log_silent {T} handle (h0 h : gmap addr (expected T)) o h' evs0 evs pre :
  constructed_in (frame_id handle) evs0 = [] →
  h0 !! frame_id handle = h !! frame_id handle →
  own_log handle h0 o h' evs pre →
  own_log handle h o h' (evs0 ++ evs) (evs0 ++ pre).
Proof.
  intros H0 Hh. unfold own_log.
  rewrite (closes_silent _ _ _ H0), <- Hh.
  destruct o as [x| | |]; [intros [-> ?]|intros (e & -> & ?)|intros [-> ?]|intros [-> ?]];
    rewrite ?(app_assoc evs0); eauto.
Qed.

Lemma own_log_automatic {T} handle (h : gmap addr (expected T)) o h' evs pre x :
  own_log (mk_handle (handle_promise handle) (x :: handle_locals handle)) h o h' evs pre →
  own_log handle h o h'
    (EvConstruct (frame_id handle) x :: evs) (EvConstruct (frame_id handle) x :: pre).
Proof.
  assert (Hc : closes handle (EvConstruct (frame_id handle) x :: pre)
             = closes (mk_handle (handle_promise handle) (x :: handle_locals handle)) pre).
  { unfold closes, constructed_in, frame_id. simpl. rewrite decide_True by done.
    simpl. by rewrite reverse_cons, <- app_assoc. }
  unfold own_log. rewrite Hc. unfold frame_id. simpl.
  destruct o as [x'| | |]; [intros [-> ?]|intros (e & -> & ?)|intros [-> ?]|intros [-> ?]];
    eauto.
Qed.

Lemma resume_own {T} (c : coro T) :
  ∀ handle (h : gmap addr (expected T)) o h' evs,
    frame_id handle ∈ dom h →
    resume c handle h = (o, h', evs) →
    ∃ pre, Forall (λ ev, finalising (frame_id handle) ev = false) pre
           ∧ own_log handle h o h' evs pre.
Proof.
  induction c as [x|r k IH|T_init callee _ k IHk|x k IH|m k IH|r k IH|];
    intros handle h o h' evs Hown Hrun.
  - simpl in Hrun. injection Hrun as <- <- <-. exists []. split; [constructor|].
    unfold own_log. rewrite closes_nil. split; [done|]. apply lookup_insert_eq.
  - destruct (h !! result_value_ r) as [[v|e]|] eqn:Hr.
    + rewrite (resume_await_value _ _ _ _ _ Hr) in Hrun. eauto.
    + rewrite (resume_await_error _ _ _ _ _ Hr) in Hrun.
      injection Hrun as <- <- <-. exists []. split; [constructor|].
      unfold own_log. rewrite closes_nil. exists e. split; [done|].
      apply lookup_insert_eq.
    + rewrite (resume_await_dangling _ _ _ _ Hr) in Hrun.
      injection Hrun as <- <- <-. exists []. by split; [constructor|].
  - simpl in Hrun.
    set (a := fresh (dom h)) in *.
    assert (Ha : a ∉ dom h) by apply is_fresh.
    assert (Hne : frame_id handle ≠ a) by (intros Heq; by rewrite Heq in Hown).
    destruct (resume callee _ _) as [[o2 h2] evs2] eqn:Hcallee.
    apply resume_foreign in Hcallee as [Hdom2 Hfor2].
    destruct (Hfor2 (frame_id handle)) as [Hl2 Hf2];
      [by apply dom_insert_subseteq | done |].
    rewrite lookup_insert_ne in Hl2 by done.
    assert (Hsil : Forall (λ ev : event T, subject ev ≠ frame_id handle)
                     ([EvAlloc a] ++ evs2)).
    { constructor; [simpl; congruence | done]. }
    apply foreign_silent in Hsil as [Hsil1 Hsil2].
    destruct (resume (k _) handle h2) as [[o3 h3] evs3] eqn:Hk.
    apply IHk in Hk as (pre & Hpre & Hlog);
      [|by apply Hdom2, dom_insert_subseteq].
    assert (Hgo : (o, h', evs) = (o3, h3, [EvAlloc a] ++ evs2 ++ evs3) →
      ∃ pre, Forall (λ ev, finalising (frame_id handle) ev = false) pre
             ∧ own_log handle h o h' evs pre).
    { intros [= -> -> ->]. exists (([EvAlloc a] ++ evs2) ++ pre). split.
      - by apply Forall_app.
      - by apply (own_log_silent handle h2 h o3 h3 ([EvAlloc a] ++ evs2) evs3 pre). }
    destruct o2; try (symmetry in Hrun; by apply Hgo).
    injection Hrun as <- <- <-. exists ([EvAlloc a] ++ evs2). split; [done|].
    by split.
  - simpl in Hrun.
    destruct (resume k _ h) as [[o1 h1] evs1] eqn:Hk.
    injection Hrun as <- <- <-.
    apply IH in Hk as (pre & Hpre & Hlog); [|done].
    exists (EvConstruct (frame_id handle) x :: pre). split.
    + by constructor.
    + by apply own_log_automatic.
  - simpl in Hrun.
    destruct (resume k _ h) as [[o1 h1] evs1] eqn:Hk.
    injection Hrun as <- <- <-.
    apply IH in Hk as (pre & Hpre & Hlog); [|done].
    exists ([EvMark (frame_id handle) m] ++ pre). split.
    + by constructor.
    + by apply (own_log_silent handle h h o1 h1 [EvMark (frame_id handle) m] evs1 pre).
  - simpl in Hrun. destruct (observe r h) as [x|].
    + eauto.
    + injection Hrun as <- <- <-. exists []. by split; [constructor|].
  - simpl in Hrun. injection Hrun as <- <- <-. exists []. split; [constructor|].
    unfold own_log. by rewrite closes_nil.
Qed.

Lemma body_part_quiet {T} b (pre : list (event T)) :
  Forall (λ ev, finalising b ev = false) pre →
  writes_to b pre = [] ∧ released_in b pre = [].
Proof.
  induction 1 as [|ev pre Hev _ [IH1 IH2]]; [by split|].
  change (ev :: pre) with ([ev] ++ pre).
  rewrite writes_to_app, released_in_app, IH1, IH2, !app_nil_r.
  unfold writes_to, released_in.
  destruct ev; simpl in *; try done;
    apply bool_decide_eq_false in Hev; by rewrite decide_False.
Qed.

Lemma release_log {T} f ls :
  let evs : list (event T) := EvRelease f <$> ls in
  writes_to f evs = [] ∧ constructed_in f evs = [] ∧ marks_in f evs = []
  ∧ released_in f evs = ls.
Proof.
  simpl. induction ls as [|x ls (IH1 & IH2 & IH3 & IH4)]; [done|].
  rewrite fmap_cons.
  change (EvRelease f x :: (EvRelease f <$> ls))
    with ([EvRelease (T:=T) f x] ++ (EvRelease f <$> ls)).
  rewrite writes_to_app, constructed_in_app, marks_in_app, released_in_app.
  rewrite IH1, IH2, IH3, IH4.
  unfold writes_to, constructed_in, marks_in, released_in. simpl.
  by rewrite decide_True.
Qed.

Lemma destroy_log {T} p ls :
  let evs : list (event T) := handle_destroy (mk_handle p ls) in
  writes_to (promise_value_ p) evs = []
  ∧ constructed_in (promise_value_ p) evs = []
  ∧ marks_in (promise_value_ p) evs = []
  ∧ released_in (promise_value_ p) evs = ls.
Proof.
  simpl. unfold handle_destroy, release_locals, frame_id. simpl.
  rewrite writes_to_app, constructed_in_app, marks_in_app, released_in_app.
  destruct (release_log (T:=T) (promise_value_ p) ls) as (-> & -> & -> & ->).
  unfold writes_to, constructed_in, marks_in, released_in. simpl.
  by rewrite app_nil_r.
Qed.

(** A call is the run of the body in a new frame whose cell is new. *)
Lemma call_inv {T} (T_init : T) body (h : gmap addr (expected T)) r o h' evs :
  call T_init body h = (r, o, h', evs) →
  let a := result_value_ r in
  let h1 := <[a := Value T_init]> h in
  ∃ evs2, (a ∉ dom h) ∧ a ∈ dom h1 ∧ evs = EvAlloc a :: evs2
          ∧ resume body (mk_handle (mk_promise a) []) h1 = (o, h', evs2).
Proof.
  unfold call. simpl.
  destruct (resume body _ _) as [[o2 h2] evs2] eqn:Hrun.
  intros [= <- <- <- <-]. simpl. exists evs2.
  split; [apply is_fresh|]. split; [|done].
  apply elem_of_dom. rewrite lookup_insert_eq. eauto.
Qed.

(** A caller that is itself a coroutine continues only after everything
    the callee's run did. *)
Lemma invoke_after_call {T} (T_init : T) body k handle0
    (h : gmap addr (expected T)) r o h' evs :
  call T_init body h = (r, o, h', evs) → o ≠ Undefined →
  resume (invoke T_init body k) handle0 h
  = let '(o3, h3, evs3) := resume (k r) handle0 h' in (o3, h3, evs ++ evs3).
Proof.
  unfold call. simpl.
  destruct (resume body _ _) as [[o2 h2] evs2] eqn:Hrun.
  intros [= <- <- <- <-] Ho. by destruct o2.
Qed.

(** ** The properties of the specification *)

(** C1, propagation fidelity.  When frame B (behind [handle]) awaits a
    carrier [r] whose cell holds the error code [E], then whatever follows
    the await point in B (the continuation [k]) the run is the same: B
    stays suspended, its own cell and so its own carrier hold exactly [E],
    and the only events are the write of [E] and the destruction of B; no
    marker is touched and nothing is constructed. *)
Theorem propagation_fidelity {T} (r : result) (handle : coroutine_handle)
    (h : gmap addr (expected T)) (E : Z) :
  h !! result_value_ r = Some (Unexpected E) →
  ∃ h' evs,
    (∀ k, resume (co_await r k) handle h = (Suspended, h', evs))
    ∧ h' !! frame_id handle = Some (Unexpected E)
    ∧ Result.operator_bool (Promise.get_return_object (handle_promise handle)) h'
      = Some false
    ∧ Result.error (Promise.get_return_object (handle_promise handle)) h' = Got E
    ∧ evs = EvWrite (frame_id handle) (Unexpected E) :: handle_destroy handle
    ∧ marks_in (frame_id handle) evs = []
    ∧ constructed_in (frame_id handle) evs = []
    ∧ writes_to (frame_id handle) evs = [Unexpected E].
Proof.
  intros Hr. destruct handle as [[b] ls].
  exists (<[b := Unexpected E]> h),
         (EvWrite b (Unexpected E) :: handle_destroy (mk_handle (mk_promise b) ls)).
  split. { intros k. by apply resume_await_error. }
  unfold Result.operator_bool, Result.error, Promise.get_return_object, frame_id.
  simpl. rewrite lookup_insert_eq. do 4 (split; [done|]).
  destruct (destroy_log (T:=T) (mk_promise b) ls) as (Hw & Hc & Hm & _).
  simpl in Hw, Hc, Hm.
  rewrite decide_True by done. by rewrite Hw, Hc, Hm.
Qed.

Lemma propagation_fidelity_witness :
  ∃ h' evs,
    (∀ k, resume (T:=Z) (co_await (mk_result 0) k) (mk_handle (mk_promise 1) [8; 7])
            {[0 := Unexpected 2%Z; 1 := Value 0%Z]} = (Suspended, h', evs))
    ∧ h' !! 1 = Some (Unexpected 2%Z).
Proof.
  destruct (propagation_fidelity (T:=Z) (mk_result 0) (mk_handle (mk_promise 1) [8; 7])
              {[0 := Unexpected 2%Z; 1 := Value 0%Z]} 2%Z) as (h' & evs & Hk & Hc & _).
  - vm_compute. reflexivity.
  - exists h', evs. split; [exact Hk | exact Hc].
Defined.

(** C3, no spurious propagation.  When the awaited carrier holds the value
    [v], the suspend decision answers "resume": it writes nothing, emits
    nothing and leaves the store as it was; the await expression has the
    value [v]; and B goes on at once with its continuation applied to [v],
    in the same frame with the same automatic objects.  In particular a
    body that touches a marker after the await and then returns a result
    computed from the awaited value runs to that [co_return]: the marker
    is touched, the only write to B's cell is B's own result, and B's
    automatic objects are released only then. *)
Theorem no_spurious_propagation {T} (r : result) (handle : coroutine_handle)
    (h : gmap addr (expected T)) (v : T) (k : T → coro T) :
  h !! result_value_ r = Some (Value v) →
  Result.operator_bool r h = Some true
  ∧ Result.await_suspend r handle h = Some (false, h, [])
  ∧ Result.await_resume r h = Got v
  ∧ resume (co_await r k) handle h = resume (k v) handle h
  ∧ ∀ (f : T → expected T) (m : marker),
      resume (co_await r (λ v', effect m (co_return (f v')))) handle h
      = (Returned (f v), <[frame_id handle := f v]> h,
         EvMark (frame_id handle) m :: EvWrite (frame_id handle) (f v)
           :: handle_destroy handle).
Proof.
  intros Hr. split; [|split; [|split; [|split]]].
  - unfold Result.operator_bool. by rewrite Hr.
  - by apply (await_suspend_value _ _ _ v).
  - by apply await_resume_value.
  - by apply resume_await_value.
  - intros f m.
    by rewrite (resume_await_value _ (λ v', effect m (co_return (f v'))) _ _ _ Hr).
Qed.

Lemma no_spurious_propagation_witness :
  resume (T:=Z) (co_await (mk_result 0) (λ v, effect 3 (co_return (Value (v + 1)%Z))))
    (mk_handle (mk_promise 1) [8]) {[0 := Value 41%Z; 1 := Value 0%Z]}
  = (Returned (Value 42%Z),
     <[1 := Value 42%Z]> {[0 := Value 41%Z; 1 := Value 0%Z]},
     [EvMark 1 3; EvWrite 1 (Value 42%Z); EvRelease 1 8; EvDestroy 1]).
Proof.
  destruct (no_spurious_propagation (T:=Z) (mk_result 0)
              (mk_handle (mk_promise 1) [8])
              {[0 := Value 41%Z; 1 := Value 0%Z]} 41%Z
              (λ v, effect 3 (co_return (Value (v + 1)%Z))))
    as (_ & _ & _ & _ & Hrun).
  - vm_compute. reflexivity.
  - exact (Hrun (λ v, Value (v + 1)%Z) 3).
Defined.

(** C8.  The ready check answers "not ready" for every carrier, whatever
    its cell holds, so an await always goes through the suspend decision:
    the run of an await point is given by [await_suspend] alone. *)
Theorem ready_check_always_false {T} (r : result) (k : T → coro T)
    (handle : coroutine_handle) (h : gmap addr (expected T)) :
  Result.await_ready r = false
  ∧ resume (co_await r k) handle h
    = match Result.await_suspend r handle h with
      | None => (Undefined, h, [])
      | Some (true, h1, evs1) => (Suspended, h1, evs1)
      | Some (false, h1, evs1) =>
          match Result.await_resume r h1 with
          | Got v =>
              let '(o, h2, evs2) := resume (k v) handle h1 in (o, h2, evs1 ++ evs2)
          | _ => (Undefined, h1, evs1)
          end
      end.
Proof. split; reflexivity. Qed.

(** C10.  The value extraction is reached only after the ready check said
    "not ready" and the suspend decision said "resume"; then the cell of
    the carrier holds a value, so the dereference in [await_resume] is
    defined and returns it. *)
Theorem await_resume_never_on_error {T} (r : result) (handle : coroutine_handle)
    (h h1 : gmap addr (expected T)) (evs1 : list (event T)) :
  Result.await_suspend r handle h = Some (false, h1, evs1) →
  Result.await_ready r = false
  ∧ ∃ v, h1 !! result_value_ r = Some (Value v) ∧ Result.await_resume r h1 = Got v.
Proof.
  unfold Result.await_suspend, Result.await_resume.
  destruct (h !! result_value_ r) as [[v|e]|] eqn:Hr; simpl; [|done..].
  intros [= <- <-]. split; [done|]. exists v. by rewrite Hr.
Qed.

Lemma await_resume_never_on_error_witness :
  Result.await_ready (mk_result 0) = false
  ∧ ∃ v, ({[0 := Value 41%Z]} : gmap addr (expected Z)) !! 0 = Some (Value v)
         ∧ Result.await_resume (mk_result 0) ({[0 := Value 41%Z]} : gmap addr (expected Z))
           = Got v.
Proof.
  apply (await_resume_never_on_error (T:=Z) (mk_result 0) (mk_handle (mk_promise 1) [])
           {[0 := Value 41%Z]} {[0 := Value 41%Z]} []).
  vm_compute. reflexivity.
Defined.

Lemma call_log {T} (T_init : T) body (h : gmap addr (expected T)) r o h' evs :
  call T_init body h = (r, o, h', evs) →
  let b := result_value_ r in
  ∃ evs2 pre,
    evs = EvAlloc b :: evs2
    ∧ Forall (λ ev, finalising b ev = false) pre
    ∧ own_log (mk_handle (mk_promise b) []) (<[b := Value T_init]> h) o h' evs2 pre.
Proof.
  intros Hcall. apply call_inv in Hcall as (evs2 & _ & Hin & -> & Hrun).
  apply resume_own in Hrun as (pre & Hpre & Hlog); [|done].
  simpl. by exists evs2, pre.
Qed.

(** C4, success invariant.  Whenever the run of a frame ends in
    [co_return v] (finalize with the value [v]), the carrier the caller
    holds tests true and dereferencing it gives [v]. *)
Theorem success_invariant {T} (T_init : T) (body : coro T)
    (h : gmap addr (expected T)) r h' evs (v : T) :
  call T_init body h = (r, Returned (Value v), h', evs) →
  Result.operator_bool r h' = Some true ∧ Result.operator_deref r h' = Got v.
Proof.
  intros Hcall. apply call_log in Hcall as (evs2 & pre & _ & _ & _ & Hcell).
  unfold Result.operator_bool, Result.operator_deref.
  unfold frame_id in Hcell. simpl in Hcell. by rewrite Hcell.
Qed.

Lemma success_invariant_witness :
  let '(r, _, h', _) :=
    call Demo.empty_string (Demo.read_from_file Demo.present "existing_file.txt") ∅ in
  Result.operator_bool r h' = Some true
  ∧ Result.operator_deref r h' = Got (Demo.VString "abc").
Proof.
  destruct (call Demo.empty_string
              (Demo.read_from_file Demo.present "existing_file.txt") ∅)
    as [[[r o] h'] evs] eqn:Hcall.
  apply (success_invariant Demo.empty_string
           (Demo.read_from_file Demo.present "existing_file.txt") ∅ r h' evs).
  rewrite Hcall. vm_compute in Hcall.
  injection Hcall as <- <- <- <-. reflexivity.
Defined.

(** C5, leaf-error invariant.  Whenever the run of a frame ends in
    [co_return std::unexpected(e)] (finalize with the error code [e]), the
    carrier the caller holds tests false and its error accessor gives [e].
    This holds for every such frame, so also for one that awaited
    nothing. *)
Theorem leaf_error_invariant {T} (T_init : T) (body : coro T)
    (h : gmap addr (expected T)) r h' evs (e : Z) :
  call T_init body h = (r, Returned (Unexpected e), h', evs) →
  Result.operator_bool r h' = Some false ∧ Result.error r h' = Got e.
Proof.
  intros Hcall. apply call_log in Hcall as (evs2 & pre & _ & _ & _ & Hcell).
  unfold Result.operator_bool, Result.error.
  unfold frame_id in Hcell. simpl in Hcell. by rewrite Hcell.
Qed.

Lemma leaf_error_invariant_witness :
  let '(r, _, h', _) :=
    call Demo.nullptr (Demo.open_file Demo.missing "existing_file.txt" "r") ∅ in
  Result.operator_bool r h' = Some false ∧ Result.error r h' = Got 2%Z.
Proof.
  destruct (call Demo.nullptr (Demo.open_file Demo.missing "existing_file.txt" "r") ∅)
    as [[[r o] h'] evs] eqn:Hcall.
  apply (leaf_error_invariant Demo.nullptr
           (Demo.open_file Demo.missing "existing_file.txt" "r") ∅ r h' evs).
  rewrite Hcall. vm_compute in Hcall.
  injection Hcall as <- <- <- <-. reflexivity.
Defined.

(** What the three ways of ending a frame leave in the log of its call. *)
Lemma own_log_writes {T} b (h : gmap addr (expected T)) o h' evs pre :
  Forall (λ ev, finalising b ev = false) pre →
  own_log (mk_handle (mk_promise b) []) h o h' evs pre →
  match o with
  | Returned x => writes_to b evs = [x] ∧ h' !! b = Some x
  | Suspended => ∃ e, writes_to b evs = [Unexpected e] ∧ h' !! b = Some (Unexpected e)
  | Faulted | Undefined => writes_to b evs = [] ∧ h' !! b = h !! b
  end.
Proof.
  intros Hpre Hlog. apply body_part_quiet in Hpre as [Hw _].
  unfold own_log, closes, frame_id in Hlog. simpl in Hlog.
  destruct (destroy_log (T:=T) (mk_promise b)
              (reverse (constructed_in b pre) ++ [])) as (Hwd & _).
  simpl in Hwd.
  assert (Hone : ∀ x : expected T, writes_to b [EvWrite b x] = [x]).
  { intros x. unfold writes_to. simpl. by rewrite decide_True. }
  destruct o as [x| | |].
  - destruct Hlog as [-> Hcell]. split; [|done].
    change (EvWrite b x :: ?l) with ([EvWrite b x] ++ l).
    by rewrite !writes_to_app, Hw, Hone, Hwd.
  - destruct Hlog as (e & -> & Hcell). exists e. split; [|done].
    change (EvWrite b ?x :: ?l) with ([EvWrite b x] ++ l).
    by rewrite !writes_to_app, Hw, Hone, Hwd.
  - destruct Hlog as [-> Hcell]. split; [|done].
    by rewrite !writes_to_app, Hw, Hwd.
  - destruct Hlog as [-> Hcell]. by split.
Qed.

(** C9.  The unhandled-fault hook changes nothing and emits nothing.  When
    the body of a frame leaves by an exception, the run writes nothing to
    the frame's cell, which keeps the value-initialised [T] it was made
    with: the caller's carrier tests true and dereferences to that
    value. *)
Theorem unhandled_fault_swallowed {T} (T_init : T) (body : coro T)
    (h : gmap addr (expected T)) r h' evs :
  call T_init body h = (r, Faulted, h', evs) →
  (∀ p h0, Promise.unhandled_exception (T:=T) p h0 = (h0, []))
  ∧ writes_to (result_value_ r) evs = []
  ∧ h' !! result_value_ r = Some (Value T_init)
  ∧ Result.operator_bool r h' = Some true
  ∧ Result.operator_deref r h' = Got T_init.
Proof.
  intros Hcall. split; [done|].
  apply call_log in Hcall as (evs2 & pre & -> & Hpre & Hlog).
  apply own_log_writes in Hlog as [Hw Hcell]; [|done].
  rewrite lookup_insert_eq in Hcell.
  unfold Result.operator_bool, Result.operator_deref. rewrite Hcell.
  split; [|done].
  change (EvAlloc (result_value_ r) :: evs2)
    with ([EvAlloc (T:=T) (result_value_ r)] ++ evs2).
  by rewrite writes_to_app, Hw.
Qed.

Lemma unhandled_fault_swallowed_witness :
  let '(r, _, h', evs) :=
    call (T:=Z) 0%Z (automatic 1 (effect 2 throw)) ∅ in
  writes_to (result_value_ r) evs = []
  ∧ Result.operator_bool r h' = Some true
  ∧ Result.operator_deref r h' = Got 0%Z.
Proof.
  destruct (call (T:=Z) 0%Z (automatic 1 (effect 2 throw)) ∅)
    as [[[r o] h'] evs] eqn:Hcall.
  destruct (unhandled_fault_swallowed (T:=Z) 0%Z (automatic 1 (effect 2 throw))
              ∅ r h' evs) as (_ & Hw & _ & Hb & Hd).
  - rewrite Hcall. vm_compute in Hcall. injection Hcall as <- <- <- <-. reflexivity.
  - auto.
Defined.

(** C6, write-once.  A frame whose run reaches one of the three terminal
    states wrote its cell exactly once during the call; the cell holds
    what was written; and no later run of another frame writes to that
    cell or changes it. *)
Theorem write_once {T} (T_init : T) (body : coro T)
    (h : gmap addr (expected T)) r o h' evs (t : terminal) :
  call T_init body h = (r, o, h', evs) →
  terminal_of o = Some t →
  (∃ x, writes_to (result_value_ r) evs = [x] ∧ h' !! result_value_ r = Some x)
  ∧ ∀ (c : coro T) handle (h2 : gmap addr (expected T)) o2 h2' evs2,
      result_value_ r ∈ dom h2 →
      frame_id handle ≠ result_value_ r →
      resume c handle h2 = (o2, h2', evs2) →
      writes_to (result_value_ r) evs2 = []
      ∧ h2' !! result_value_ r = h2 !! result_value_ r.
Proof.
  intros Hcall Ht. split.
  - apply call_log in Hcall as (evs2 & pre & -> & Hpre & Hlog).
    apply own_log_writes in Hlog; [|done].
    assert (Hall : ∀ l, writes_to (result_value_ r)
                          (EvAlloc (T:=T) (result_value_ r) :: l)
                        = writes_to (result_value_ r) l) by done.
    rewrite Hall.
    destruct o as [x| | |]; try done.
    + exists x. done.
    + destruct Hlog as (e & ? & ?). by exists (Unexpected e).
  - intros c handle h2 o2 h2' evs2 Hin Hne Hrun.
    apply resume_foreign in Hrun as [_ Hfor].
    destruct (Hfor (result_value_ r)) as [Hcell Hev]; [done..|].
    split; [|done].
    apply foreign_silent in Hev as [_ Hev].
    by apply body_part_quiet in Hev as [Hw _].
Qed.

Lemma write_once_witness :
  let '(r, _, _, evs) :=
    call Demo.empty_string (Demo.read_from_file Demo.missing "existing_file.txt") ∅ in
  ∃ x, writes_to (result_value_ r) evs = [x].
Proof.
  destruct (call Demo.empty_string
              (Demo.read_from_file Demo.missing "existing_file.txt") ∅)
    as [[[r o] h'] evs] eqn:Hcall.
  destruct (write_once Demo.empty_string
              (Demo.read_from_file Demo.missing "existing_file.txt") ∅ r o h' evs
              DestroyedOnPropagatedError) as [(x & Hx & _) _].
  - exact Hcall.
  - vm_compute in Hcall. injection Hcall as <- <- <- <-. reflexivity.
  - by exists x.
Defined.

Lemma suspended_log {T} (T_init : T) (B : coro T)
    (h : gmap addr (expected T)) r h' evs :
  call T_init B h = (r, Suspended, h', evs) →
  let b := result_value_ r in
  (∃ pre e,
      evs = EvAlloc b :: pre ++ [EvWrite b (Unexpected e)]
            ++ (EvRelease b <$> reverse (constructed_in b pre)) ++ [EvDestroy b]
      ∧ released_in b pre = []
      ∧ constructed_in b evs = constructed_in b pre)
  ∧ released_in b evs = reverse (constructed_in b evs).
Proof.
  intros Hcall b.
  apply call_log in Hcall as (evs2 & pre & -> & Hpre & Hlog).
  fold b in Hpre, Hlog.
  apply body_part_quiet in Hpre as [_ Hrel].
  destruct Hlog as (e & -> & _).
  unfold closes, frame_id. simpl. rewrite app_nil_r.
  set (ls := reverse (constructed_in b pre)).
  destruct (destroy_log (T:=T) (mk_promise b) ls) as (_ & Hcd & _ & Hrd).
  simpl in Hcd, Hrd.
  assert (Hc : constructed_in b
                 (pre ++ EvWrite b (Unexpected e)
                    :: handle_destroy (mk_handle (mk_promise b) ls))
               = constructed_in b pre).
  { change (EvWrite b ?x :: ?l) with ([EvWrite (T:=T) b x] ++ l).
    rewrite !constructed_in_app, Hcd. unfold constructed_in at 2. simpl.
    by rewrite app_nil_r. }
  split.
  - exists pre, e. by split; [|split].
  - rewrite Hc.
    change (EvWrite b ?x :: ?l) with ([EvWrite (T:=T) b x] ++ l).
    rewrite !released_in_app, Hrel, Hrd. done.
Qed.

(** C2, deterministic release.  The run of frame B ends suspended when B
    awaits a carrier that holds an error ([resume_await_error]; [resume]
    has no other suspended outcome).  Then the log of the call is: the
    events [pre] of B's body, in which B released nothing; the write of
    the error; the release of every automatic object B
    constructed in [pre], newest first; the destruction of B.  So each
    object B constructed is released once, in reverse order of
    construction, right after the error is forwarded; and a caller that is
    a coroutine continues only after all of this. *)
Theorem deterministic_release {T} (T_init : T) (B : coro T)
    (h : gmap addr (expected T)) r h' evs :
  call T_init B h = (r, Suspended, h', evs) →
  let b := result_value_ r in
  (∃ pre e,
      evs = EvAlloc b :: pre ++ [EvWrite b (Unexpected e)]
            ++ (EvRelease b <$> reverse (constructed_in b pre)) ++ [EvDestroy b]
      ∧ released_in b pre = []
      ∧ constructed_in b evs = constructed_in b pre)
  ∧ released_in b evs = reverse (constructed_in b evs)
  ∧ ∀ k handle0,
      resume (invoke T_init B k) handle0 h
      = let '(o3, h3, evs3) := resume (k r) handle0 h' in (o3, h3, evs ++ evs3).
Proof.
  intros Hcall b.
  destruct (suspended_log _ _ _ _ _ _ Hcall) as [Hshape Hrel].
  split; [exact Hshape|]. split; [exact Hrel|].
  intros k handle0. by apply (invoke_after_call _ _ _ _ _ _ Suspended).
Qed.

Lemma deterministic_release_witness :
  let '(r, _, _, evs) :=
    call (T:=Z) 0%Z
      (automatic 1 (automatic 2 (effect 9
         (invoke 0%Z (co_return (Unexpected 13%Z)) (λ awaited,
          co_await awaited (λ v, automatic 3 (effect 10 (co_return (Value v)))))))))
      ∅ in
  released_in (result_value_ r) evs = [2; 1] ∧ marks_in (result_value_ r) evs = [9].
Proof.
  destruct (call (T:=Z) 0%Z
      (automatic 1 (automatic 2 (effect 9
         (invoke 0%Z (co_return (Unexpected 13%Z)) (λ awaited,
          co_await awaited (λ v, automatic 3 (effect 10 (co_return (Value v)))))))))
      ∅) as [[[r o] h'] evs] eqn:Hcall.
  assert (Ho : o = Suspended).
  { vm_compute in Hcall. by injection Hcall as <- <- <- <-. }
  subst o.
  destruct (deterministic_release _ _ _ _ _ _ Hcall) as (_ & Hrel & _).
  rewrite Hrel. vm_compute in Hcall. injection Hcall as <- <- <-.
  split; reflexivity.
Defined.

(** C7 as stated fails: the cell a new promise allocates is not unset, it
    already holds a value, and its carrier tests true. *)
Lemma fresh_slot_not_unset :
  let '(p, h1, _) := Promise.ctor (T:=Z) 0%Z ∅ in
  ¬ unset h1 (promise_value_ p)
  ∧ holds_value h1 (promise_value_ p)
  ∧ Result.operator_bool (Promise.get_return_object p) h1 = Some true.
Proof.
  simpl.
  assert (Hv : holds_value (<[fresh (dom (∅ : gmap addr (expected Z))) := Value 0%Z]> ∅)
                 (fresh (dom (∅ : gmap addr (expected Z))))).
  { exists 0%Z. apply lookup_insert_eq. }
  split; [|split; [exact Hv|]].
  - intros [Hn _]. by apply Hn.
  - unfold Result.operator_bool. simpl. by rewrite lookup_insert_eq.
Qed.

(** C7 amended.  A cell is in one of two states, value or error.  The cell
    a new promise allocates is new and holds the value-initialised [T]:
    its carrier tests true and dereferences to that value.  It keeps it
    through the run of the owning frame as long as that run has not
    written the cell. *)
Theorem fresh_slot_holds_default {T} (T_init : T) (h : gmap addr (expected T))
    p h1 evs0 :
  Promise.ctor T_init h = (p, h1, evs0) →
  (∀ x : expected T, (∃ v, x = Value v) ∨ (∃ e, x = Unexpected e))
  ∧ h !! promise_value_ p = None
  ∧ h1 !! promise_value_ p = Some (Value T_init)
  ∧ Result.operator_bool (Promise.get_return_object p) h1 = Some true
  ∧ Result.operator_deref (Promise.get_return_object p) h1 = Got T_init
  ∧ ∀ body o h' evs,
      resume body (mk_handle p []) h1 = (o, h', evs) →
      writes_to (promise_value_ p) evs = [] →
      h' !! promise_value_ p = Some (Value T_init).
Proof.
  intros Hctor. apply ctor_fresh in Hctor as (Hfresh & -> & _).
  destruct p as [b]. simpl in *.
  assert (Hcell : (<[b := Value T_init]> h) !! b = Some (Value T_init))
    by apply lookup_insert_eq.
  split; [intros [v|e]; eauto|].
  split; [by apply not_elem_of_dom|].
  split; [done|].
  unfold Result.operator_bool, Result.operator_deref, Promise.get_return_object.
  simpl. rewrite Hcell. do 2 (split; [done|]).
  intros body o h' evs Hrun Hnone.
  apply resume_own in Hrun as (pre & Hpre & Hlog).
  2: { unfold frame_id. simpl. apply elem_of_dom. eauto. }
  unfold frame_id in Hpre, Hlog. simpl in Hpre, Hlog.
  apply own_log_writes in Hlog; [|done].
  destruct o as [x| | |].
  - destruct Hlog as [Hw _]. congruence.
  - destruct Hlog as (e & Hw & _). congruence.
  - destruct Hlog as [_ ->]. done.
  - destruct Hlog as [_ ->]. done.
Qed.

Lemma fresh_slot_holds_default_witness :
  let '(p, h1, _) := Promise.ctor Demo.nullptr ∅ in
  h1 !! promise_value_ p = Some (Value Demo.nullptr)
  ∧ Result.operator_bool (Promise.get_return_object p) h1 = Some true.
Proof.
  destruct (Promise.ctor Demo.nullptr ∅) as [[p h1] evs0] eqn:Hctor.
  destruct (fresh_slot_holds_default Demo.nullptr ∅ p h1 evs0 Hctor)
    as (_ & _ & Hcell & Hbool & _).
  by split.
Defined.

(** ** Further properties of the code *)

Lemma observe_lookup {T} r (h : gmap addr (expected T)) :
  observe r h = h !! result_value_ r.
Proof.
  unfold observe, Result.operator_bool, Result.operator_deref, Result.error.
  by destruct (h !! result_value_ r) as [[v|e]|].
Qed.

(** X1.  What a promise stores with [return_value] is what every carrier
    made from it by [get_return_object] shows under the guarded use, and
    carriers of other cells show what they showed before.  The store is a
    plain assignment: a second [return_value] on the same promise replaces
    the first. *)
Theorem return_value_observed {T} (p : promise) (x y : expected T)
    (h : gmap addr (expected T)) :
  let h1 := (Promise.return_value p x h).1 in
  observe (Promise.get_return_object p) h1 = Some x
  ∧ (∀ r, result_value_ r ≠ promise_value_ p → observe r h1 = observe r h)
  ∧ (Promise.return_value p y h1).1 = (Promise.return_value p y h).1.
Proof.
  simpl. rewrite !observe_lookup. simpl. split; [apply lookup_insert_eq|]. split.
  - intros r Hr. rewrite !observe_lookup. by apply lookup_insert_ne.
  - apply insert_insert_eq.
Qed.

(** X2.  The guarded use of a carrier (test it, then [operator*] or
    [error()]) is defined on every carrier whose cell exists and gives the
    cell's content; used without the test, [operator*] on an error throws
    [std::bad_expected_access], while [await_resume] on an error and
    [error()] on a value have no defined behaviour. *)
Theorem guarded_use {T} (r : result) (h : gmap addr (expected T)) (x : expected T) :
  h !! result_value_ r = Some x →
  observe r h = Some x
  ∧ Result.operator_bool r h = Some (has_value x)
  ∧ (has_value x = false →
     Result.operator_deref r h = BadExpectedAccess
     ∧ Result.await_resume r h = NoBehaviour)
  ∧ (has_value x = true → Result.error r h = NoBehaviour).
Proof.
  intros Hr. rewrite observe_lookup.
  unfold Result.operator_bool, Result.operator_deref, Result.error,
    Result.await_resume.
  rewrite Hr. by destruct x.
Qed.

Lemma guarded_use_witness :
  observe (mk_result 0) ({[0 := Unexpected 2%Z]} : gmap addr (expected Z))
  = Some (Unexpected 2%Z)
  ∧ Result.operator_deref (mk_result 0) ({[0 := Unexpected 2%Z]} : gmap addr (expected Z))
    = BadExpectedAccess.
Proof.
  destruct (guarded_use (T:=Z) (mk_result 0) {[0 := Unexpected 2%Z]} (Unexpected 2%Z))
    as (Ho & _ & Hd & _).
  - vm_compute. reflexivity.
  - split; [exact Ho | apply Hd; reflexivity].
Defined.

Lemma live_mono {T} D (c : coro T) :
  live D c → ∀ D', D ⊆ D' → live D' c.
Proof.
  induction 1 as [D x|D r k Hr _ IH|D T_init callee k _ IHc _ IHk|D x k _ IH
                 |D m k _ IH|D r k Hr _ IH|D]; intros D' Hsub.
  - constructor.
  - constructor; [by apply Hsub | eauto].
  - constructor; [eauto|]. intros r. apply IHk. by apply union_mono_r.
  - constructor; eauto.
  - constructor; eauto.
  - constructor; [by apply Hsub | eauto].
  - constructor.
Qed.

Lemma resume_dom {T} (c : coro T) handle (h : gmap addr (expected T)) o h' evs :
  resume c handle h = (o, h', evs) → dom h ⊆ dom h'.
Proof. intros Hrun. by apply resume_foreign in Hrun as [? _]. Qed.

Lemma resume_live {T} D (c : coro T) :
  live D c →
  ∀ handle (h : gmap addr (expected T)) o h' evs,
    D ⊆ dom h → resume c handle h = (o, h', evs) → o ≠ Undefined.
Proof.
  induction 1 as [D x|D r k Hr _ IH|D T_init callee k _ IHc _ IHk|D x k _ IH
                 |D m k _ IH|D r k Hr _ IH|D]; intros handle h o h' evs Hsub Hrun.
  - simpl in Hrun. by injection Hrun as <- _ _.
  - apply Hsub, elem_of_dom in Hr as [[v|e] Hr].
    + rewrite (resume_await_value _ _ _ _ _ Hr) in Hrun. eauto.
    + rewrite (resume_await_error _ _ _ _ _ Hr) in Hrun. by injection Hrun as <- _ _.
  - simpl in Hrun.
    set (a := fresh (dom h)) in *.
    assert (Hdom1 : dom h ⊆ dom (<[a := Value T_init]> h))
      by apply dom_insert_subseteq.
    assert (Ha1 : a ∈ dom (<[a := Value T_init]> h)).
    { apply elem_of_dom. rewrite lookup_insert_eq. eauto. }
    destruct (resume callee _ _) as [[o2 h2] evs2] eqn:Hcallee.
    assert (Ho2 : o2 ≠ Undefined).
    { eapply IHc; [|exact Hcallee]. by etrans. }
    apply resume_dom in Hcallee.
    destruct (resume (k _) handle h2) as [[o3 h3] evs3] eqn:Hk.
    assert (Ho3 : o3 ≠ Undefined).
    { eapply IHk; [|exact Hk]. simpl. apply union_least.
      - by repeat (etrans; [eassumption|]).
      - apply singleton_subseteq_l. by apply Hcallee. }
    destruct o2; by injection Hrun as <- _ _.
  - simpl in Hrun.
    destruct (resume k _ h) as [[o1 h1] evs1] eqn:Hk.
    injection Hrun as <- _ _. eauto.
  - simpl in Hrun.
    destruct (resume k _ h) as [[o1 h1] evs1] eqn:Hk.
    injection Hrun as <- _ _. eauto.
  - apply Hsub, elem_of_dom in Hr as [x Hr].
    apply observe_Some in Hr. simpl in Hrun. rewrite Hr in Hrun. eauto.
  - simpl in Hrun. by injection Hrun as <- _ _.
Qed.

(** X3.  A function whose body awaits and inspects only carriers of cells
    that exist at the call, or carriers returned by the calls it makes
    itself, never runs into undefined behaviour: no await or inspection
    reaches a missing cell, and [await_resume] never dereferences an
    error.  Its call ends by a [co_return], by propagation, or by a
    swallowed exception. *)
Theorem live_call_defined {T} (T_init : T) (body : coro T)
    (h : gmap addr (expected T)) :
  live (dom h) body →
  ∃ r o h' evs,
    call T_init body h = (r, o, h', evs)
    ∧ o ≠ Undefined
    ∧ (is_Some (terminal_of o) ∨ o = Faulted).
Proof.
  intros Hlive.
  destruct (call T_init body h) as [[[r o] h'] evs] eqn:Hcall.
  exists r, o, h', evs. split; [done|].
  apply call_inv in Hcall as (evs2 & _ & _ & _ & Hrun).
  assert (Ho : o ≠ Undefined).
  { eapply (resume_live _ _ Hlive); [|exact Hrun]. apply dom_insert_subseteq. }
  split; [done|].
  destruct o as [[v|e]| | |]; simpl; [by left..| by right | done].
Qed.

Lemma read_from_file_live w file_name :
  live (T:=Demo.value) ∅ (Demo.read_from_file w file_name).
Proof.
  unfold Demo.read_from_file. constructor.
  - unfold Demo.open_file. destruct (Demo.fopen _ _ _); constructor.
  - intros r. constructor.
    + apply elem_of_union_r, elem_of_singleton. done.
    + intros file. constructor. destruct (decide _); constructor.
Qed.

Lemma live_call_defined_witness :
  ∃ r o h' evs,
    call Demo.empty_string (Demo.read_from_file Demo.unreadable "existing_file.txt") ∅
    = (r, o, h', evs) ∧ o ≠ Undefined.
Proof.
  destruct (live_call_defined Demo.empty_string
              (Demo.read_from_file Demo.unreadable "existing_file.txt") ∅)
    as (r & o & h' & evs & Hcall & Ho & _).
  - rewrite dom_empty_L. apply read_from_file_live.
  - exists r, o, h', evs. by split.
Defined.

(** ** Frames are destroyed once *)

Lemma destroyed_in_app {T} f (evs1 evs2 : list (event T)) :
  destroyed_in f (evs1 ++ evs2) = destroyed_in f evs1 + destroyed_in f evs2.
Proof. unfold destroyed_in. by rewrite omap_app, length_app. Qed.

Lemma destroyed_in_cons {T} f (ev : event T) evs :
  destroyed_in f (ev :: evs) = destroyed_in f [ev] + destroyed_in f evs.
Proof. apply (destroyed_in_app f [ev]). Qed.

Lemma destroyed_in_none {T} f (evs : list (event T)) :
  Forall (λ ev, subject ev ≠ f) evs → destroyed_in f evs = 0.
Proof.
  induction 1 as [|ev evs Hev _ IH]; [done|].
  rewrite destroyed_in_cons, IH. unfold destroyed_in.
  destruct ev; simpl in *; try done. by rewrite decide_False.
Qed.

Lemma destroyed_in_body {T} f (pre : list (event T)) :
  Forall (λ ev, finalising f ev = false) pre → destroyed_in f pre = 0.
Proof.
  induction 1 as [|ev evs Hev _ IH]; [done|].
  rewrite destroyed_in_cons, IH. unfold destroyed_in.
  destruct ev; simpl in *; try done.
  apply bool_decide_eq_false in Hev. by rewrite decide_False.
Qed.

Lemma destroyed_in_destroy {T} p ls :
  destroyed_in (T:=T) (promise_value_ p) (handle_destroy (mk_handle p ls)) = 1.
Proof.
  unfold handle_destroy, release_locals, frame_id. simpl.
  rewrite destroyed_in_app.
  assert (Hrel : destroyed_in (T:=T) (promise_value_ p)
                   (EvRelease (promise_value_ p) <$> ls) = 0).
  { induction ls as [|x ls IH]; [done|]. by rewrite fmap_cons, destroyed_in_cons, IH. }
  rewrite Hrel. unfold destroyed_in. simpl. by rewrite decide_True.
Qed.

Lemma own_log_destroyed {T} handle (h : gmap addr (expected T)) o h' evs pre :
  Forall (λ ev, finalising (frame_id handle) ev = false) pre →
  own_log handle h o h' evs pre →
  o ≠ Undefined →
  destroyed_in (frame_id handle) evs = 1 ∧ last evs = Some (EvDestroy (frame_id handle)).
Proof.
  intros Hpre Hlog Ho. apply destroyed_in_body in Hpre.
  assert (Hd : destroyed_in (T:=T) (frame_id handle) (closes handle pre) = 1).
  { apply (destroyed_in_destroy (handle_promise handle)). }
  assert (Hl : ∀ l : list (event T),
             last (l ++ closes handle pre) = Some (EvDestroy (frame_id handle))).
  { intros l. unfold closes, handle_destroy. rewrite !app_assoc. apply last_snoc. }
  unfold own_log in Hlog.
  destruct o as [x| | |]; [| |  |done].
  - destruct Hlog as [-> _].
    rewrite destroyed_in_app, destroyed_in_cons, Hpre, Hd. split; [done|].
    rewrite cons_middle, app_assoc. apply Hl.
  - destruct Hlog as (e & -> & _).
    rewrite destroyed_in_app, destroyed_in_cons, Hpre, Hd. split; [done|].
    rewrite cons_middle, app_assoc. apply Hl.
  - destruct Hlog as [-> _]. rewrite destroyed_in_app, Hpre, Hd. split; [done|].
    apply Hl.
Qed.

(** The cells a run allocates are new, and all it talks about are cells
    of the store it leaves. *)
Lemma resume_cells {T} (c : coro T) :
  ∀ handle (h : gmap addr (expected T)) o h' evs,
    frame_id handle ∈ dom h →
    resume c handle h = (o, h', evs) →
    Forall (λ ev, subject ev ∈ dom h') evs
    ∧ ∀ a, EvAlloc a ∈ evs → (a ∉ dom h) ∧ a ∈ dom h'.
Proof.
  induction c as [x|r k IH|T_init callee IHc k IHk|x k IH|m k IH|r k IH|];
    intros handle h o h' evs Hown Hrun.
  - simpl in Hrun. injection Hrun as <- <- <-.
    assert (Hb : frame_id handle ∈ dom (<[frame_id handle := x]> h))
      by by apply dom_insert_subseteq.
    split.
    + constructor; [done|]. apply Forall_app. split.
      * by apply Forall_fmap, Forall_true.
      * by repeat constructor.
    + intros a Ha. exfalso. apply elem_of_cons in Ha as [?|Ha]; [done|].
      apply elem_of_app in Ha as [Ha|Ha].
      * apply list_elem_of_fmap in Ha as (? & ? & _). done.
      * apply list_elem_of_singleton in Ha. done.
  - destruct (h !! result_value_ r) as [[v|e]|] eqn:Hr.
    + rewrite (resume_await_value _ _ _ _ _ Hr) in Hrun. eauto.
    + rewrite (resume_await_error _ _ _ _ _ Hr) in Hrun.
      injection Hrun as <- <- <-.
      assert (Hb : frame_id handle ∈ dom (<[frame_id handle := Unexpected e]> h))
        by by apply dom_insert_subseteq.
      split.
      * constructor; [done|]. apply Forall_app. split.
        -- by apply Forall_fmap, Forall_true.
        -- by repeat constructor.
      * intros a Ha. exfalso. apply elem_of_cons in Ha as [?|Ha]; [done|].
        apply elem_of_app in Ha as [Ha|Ha].
        -- apply list_elem_of_fmap in Ha as (? & ? & _). done.
        -- apply list_elem_of_singleton in Ha. done.
    + rewrite (resume_await_dangling _ _ _ _ Hr) in Hrun.
      injection Hrun as <- <- <-. split; [constructor|].
      intros a Ha. by apply elem_of_nil in Ha.
  - simpl in Hrun.
    set (a0 := fresh (dom h)) in *.
    assert (Ha0 : a0 ∉ dom h) by apply is_fresh.
    assert (Hdom1 : dom h ⊆ dom (<[a0 := Value T_init]> h))
      by apply dom_insert_subseteq.
    assert (Ha1 : a0 ∈ dom (<[a0 := Value T_init]> h)).
    { apply elem_of_dom. rewrite lookup_insert_eq. eauto. }
    destruct (resume callee _ _) as [[o2 h2] evs2] eqn:Hcallee.
    pose proof (resume_dom _ _ _ _ _ _ Hcallee) as Hdom2.
    apply IHc in Hcallee as [Hsub2 Hall2]; [|done].
    destruct (resume (k _) handle h2) as [[o3 h3] evs3] eqn:Hk.
    pose proof (resume_dom _ _ _ _ _ _ Hk) as Hdom3.
    apply IHk in Hk as [Hsub3 Hall3]; [|by apply Hdom2, Hdom1].
    assert (Hgo : (o, h', evs) = (o3, h3, [EvAlloc a0] ++ evs2 ++ evs3) →
      Forall (λ ev, subject ev ∈ dom h') evs
      ∧ ∀ a, EvAlloc a ∈ evs → (a ∉ dom h) ∧ a ∈ dom h').
    { intros [= -> -> ->]. split.
      - constructor; [by apply Hdom3, Hdom2|]. apply Forall_app. split; [|done].
        eapply Forall_impl; [exact Hsub2|]. intros ev Hev. by apply Hdom3.
      - intros a Ha. apply elem_of_cons in Ha as [[= ->]|Ha].
        { split; [done | by apply Hdom3, Hdom2]. }
        apply elem_of_app in Ha as [Ha|Ha].
        + apply Hall2 in Ha as [Hn Hin]. split; [|by apply Hdom3].
          intros Hd. by apply Hn, Hdom1.
        + apply Hall3 in Ha as [Hn Hin]. split; [|done].
          intros Hd. by apply Hn, Hdom2, Hdom1. }
    destruct o2; try (symmetry in Hrun; by apply Hgo).
    injection Hrun as <- <- <-. split.
    + constructor; [by apply Hdom2|]. done.
    + intros a Ha. apply elem_of_cons in Ha as [[= ->]|Ha].
      { split; [done | by apply Hdom2]. }
      apply Hall2 in Ha as [Hn Hin]. split; [|done].
      intros Hd. by apply Hn, Hdom1.
  - simpl in Hrun.
    destruct (resume k _ h) as [[o1 h1] evs1] eqn:Hk.
    injection Hrun as <- <- <-.
    pose proof (resume_dom _ _ _ _ _ _ Hk) as Hdom.
    apply IH in Hk as [Hsub Hall]; [|done]. split.
    + constructor; [by apply Hdom | done].
    + intros a Ha. apply elem_of_cons in Ha as [?|Ha]; [done | eauto].
  - simpl in Hrun.
    destruct (resume k _ h) as [[o1 h1] evs1] eqn:Hk.
    injection Hrun as <- <- <-.
    pose proof (resume_dom _ _ _ _ _ _ Hk) as Hdom.
    apply IH in Hk as [Hsub Hall]; [|done]. split.
    + constructor; [by apply Hdom | done].
    + intros a Ha. apply elem_of_cons in Ha as [?|Ha]; [done | eauto].
  - simpl in Hrun. destruct (observe r h) as [x|].
    + eauto.
    + injection Hrun as <- <- <-. split; [constructor|].
      intros a Ha. by apply elem_of_nil in Ha.
  - simpl in Hrun. injection Hrun as <- <- <-. split.
    + apply Forall_app. split.
      * by apply Forall_fmap, Forall_true.
      * by repeat constructor.
    + intros a Ha. exfalso. apply elem_of_app in Ha as [Ha|Ha].
      * apply list_elem_of_fmap in Ha as (? & ? & _). done.
      * apply list_elem_of_singleton in Ha. done.
Qed.

Lemma destroyed_in_absent {T} a (h' : gmap addr (expected T)) (evs : list (event T)) :
  Forall (λ ev, subject ev ∈ dom h') evs → a ∉ dom h' → destroyed_in a evs = 0.
Proof.
  intros Hsub Ha. apply destroyed_in_none.
  eapply Forall_impl; [exact Hsub|]. simpl. intros ev Hev Heq. by rewrite Heq in Hev.
Qed.

Lemma resume_nested_destroyed {T} (c : coro T) :
  ∀ handle (h : gmap addr (expected T)) o h' evs,
    frame_id handle ∈ dom h →
    resume c handle h = (o, h', evs) →
    o ≠ Undefined →
    ∀ a, EvAlloc a ∈ evs → destroyed_in a evs = 1.
Proof.
  induction c as [x|r k IH|T_init callee IHc k IHk|x k IH|m k IH|r k IH|];
    intros handle h o h' evs Hown Hrun Ho a Ha.
  - simpl in Hrun. injection Hrun as <- <- <-.
    unfold handle_destroy, release_locals in Ha. no_alloc Ha.
  - destruct (h !! result_value_ r) as [[v|e]|] eqn:Hr.
    + rewrite (resume_await_value _ _ _ _ _ Hr) in Hrun. eauto.
    + rewrite (resume_await_error _ _ _ _ _ Hr) in Hrun.
      injection Hrun as <- <- <-.
      unfold handle_destroy, release_locals in Ha. no_alloc Ha.
    + rewrite (resume_await_dangling _ _ _ _ Hr) in Hrun. by injection Hrun as <- _ _.
  - simpl in Hrun.
    set (a0 := fresh (dom h)) in *.
    assert (Ha0 : a0 ∉ dom h) by apply is_fresh.
    assert (Hdom1 : dom h ⊆ dom (<[a0 := Value T_init]> h))
      by apply dom_insert_subseteq.
    assert (Ha1 : a0 ∈ dom (<[a0 := Value T_init]> h)).
    { apply elem_of_dom. rewrite lookup_insert_eq. eauto. }
    assert (Hne0 : a0 ≠ frame_id handle) by (intros Heq; by rewrite Heq in Ha0).
    destruct (resume callee _ _) as [[o2 h2] evs2] eqn:Hcallee.
    destruct (resume (k _) handle h2) as [[o3 h3] evs3] eqn:Hk.
    assert (Ho2 : o2 ≠ Undefined).
    { intros ->. by injection Hrun as <- _ _. }
    assert (Hrun' : (o, h', evs) = (o3, h3, [EvAlloc a0] ++ evs2 ++ evs3)).
    { by destruct o2. }
    injection Hrun' as -> -> ->. clear Hrun.
    pose proof (resume_dom _ _ _ _ _ _ Hcallee) as Hdom2.
    pose proof (resume_dom _ _ _ _ _ _ Hk) as Hdom3.
    assert (Hown2 : frame_id handle ∈ dom h2) by by apply Hdom2, Hdom1.
    assert (Hown1 : frame_id (mk_handle (mk_promise a0) [])
                    ∈ dom (<[a0 := Value T_init]> h)) by exact Ha1.
    destruct (resume_cells _ _ _ _ _ _ Hown1 Hcallee) as [Hsub2 Hall2].
    destruct (resume_cells _ _ _ _ _ _ Hown2 Hk) as [Hsub3 Hall3].
    pose proof (resume_foreign _ _ _ _ _ _ Hk) as [_ Hfor3].
    rewrite destroyed_in_cons, destroyed_in_app.
    change (destroyed_in a [EvAlloc (T:=T) a0]) with 0. simpl.
    apply elem_of_cons in Ha as [[= ->]|Ha]; [|apply elem_of_app in Ha as [Ha|Ha]].
    + destruct (resume_own _ _ _ _ _ _ Hown1 Hcallee) as (pre & Hpre & Hlog).
      destruct (own_log_destroyed _ _ _ _ _ _ Hpre Hlog Ho2) as [Hd _].
      unfold frame_id in Hd. simpl in Hd. rewrite Hd.
      destruct (Hfor3 a0) as [_ Hf]; [by apply Hdom2 | done |].
      by rewrite (destroyed_in_none _ _ Hf).
    + rewrite (IHc _ _ _ _ _ Hown1 Hcallee Ho2 a Ha).
      apply Hall2 in Ha as [Hn Hin].
      destruct (Hfor3 a) as [_ Hf]; [done| |].
      { intros ->. by apply Hn, Hdom1. }
      by rewrite (destroyed_in_none _ _ Hf).
    + rewrite (IHk _ _ _ _ _ _ Hown2 Hk Ho a Ha).
      apply Hall3 in Ha as [Hn _].
      by rewrite (destroyed_in_absent _ _ _ Hsub2 Hn).
  - simpl in Hrun.
    destruct (resume k _ h) as [[o1 h1] evs1] eqn:Hk.
    injection Hrun as <- <- <-.
    apply elem_of_cons in Ha as [?|Ha]; [done|].
    rewrite destroyed_in_cons. change (destroyed_in a evs1 = 1).
    eapply IH; [|exact Hk|done|done]. exact Hown.
  - simpl in Hrun.
    destruct (resume k _ h) as [[o1 h1] evs1] eqn:Hk.
    injection Hrun as <- <- <-.
    apply elem_of_cons in Ha as [?|Ha]; [done|].
    rewrite destroyed_in_cons. change (destroyed_in a evs1 = 1).
    eapply IH; [|exact Hk|done|done]. exact Hown.
  - simpl in Hrun. destruct (observe r h) as [x|].
    + eauto.
    + by injection Hrun as <- _ _.
  - simpl in Hrun. injection Hrun as <- <- <-.
    unfold handle_destroy, release_locals in Ha. no_alloc Ha.
Qed.

Lemma own_log_balance {T} b ls (h : gmap addr (expected T)) o h' evs pre :
  Forall (λ ev, finalising b ev = false) pre →
  own_log (mk_handle (mk_promise b) ls) h o h' evs pre →
  o ≠ Undefined →
  released_in b evs = reverse (constructed_in b evs) ++ ls.
Proof.
  intros Hpre Hlog Ho. apply body_part_quiet in Hpre as [_ Hrel].
  unfold own_log, closes, frame_id in Hlog. simpl in Hlog.
  destruct (destroy_log (T:=T) (mk_promise b) (reverse (constructed_in b pre) ++ ls))
    as (_ & Hcd & _ & Hrd).
  simpl in Hcd, Hrd.
  assert (Hw : ∀ x : expected T,
             released_in b [EvWrite b x] = [] ∧ constructed_in b [EvWrite b x] = [])
    by done.
  destruct o as [x| | |]; [| | |done].
  - destruct Hlog as [-> _]. rewrite cons_middle.
    rewrite !released_in_app, !constructed_in_app, Hrel, Hrd, Hcd.
    destruct (Hw x) as [-> ->]. by rewrite !app_nil_r.
  - destruct Hlog as (e & -> & _). rewrite cons_middle.
    rewrite !released_in_app, !constructed_in_app, Hrel, Hrd, Hcd.
    destruct (Hw (Unexpected e)) as [-> ->]. by rewrite !app_nil_r.
  - destruct Hlog as [-> _].
    rewrite !released_in_app, !constructed_in_app, Hrel, Hrd, Hcd.
    by rewrite !app_nil_r.
Qed.

(** X4.  No frame outlives its call and none is destroyed twice: when a
    call returns (by [co_return], by propagation or after a swallowed
    exception) every frame made during it, its own and those of all nested
    calls, sits on a cell that was new and has been destroyed exactly
    once; the destruction of the called frame is the last thing that
    happened; and that frame released the automatic objects it
    constructed, each once, newest first. *)
Theorem frames_destroyed_once {T} (T_init : T) (body : coro T)
    (h : gmap addr (expected T)) r o h' evs :
  call T_init body h = (r, o, h', evs) →
  o ≠ Undefined →
  (∀ a, EvAlloc a ∈ evs → (a ∉ dom h) ∧ destroyed_in a evs = 1)
  ∧ EvAlloc (result_value_ r) ∈ evs
  ∧ last evs = Some (EvDestroy (result_value_ r))
  ∧ released_in (result_value_ r) evs = reverse (constructed_in (result_value_ r) evs).
Proof.
  intros Hcall Ho.
  apply call_inv in Hcall as (evs2 & Hfresh & Hin & -> & Hrun).
  set (b := result_value_ r) in *.
  assert (Hown : frame_id (mk_handle (mk_promise b) [])
                 ∈ dom (<[b := Value T_init]> h)) by exact Hin.
  destruct (resume_own _ _ _ _ _ _ Hown Hrun) as (pre & Hpre & Hlog).
  destruct (own_log_destroyed _ _ _ _ _ _ Hpre Hlog Ho) as [Hd Hlast].
  unfold frame_id in Hd, Hlast, Hpre. simpl in Hd, Hlast, Hpre.
  destruct (resume_cells _ _ _ _ _ _ Hown Hrun) as [_ Hall].
  split; [|split; [apply list_elem_of_here|split]].
  - intros a Ha. rewrite destroyed_in_cons.
    change (destroyed_in a [EvAlloc (T:=T) b]) with 0.
    apply elem_of_cons in Ha as [[= ->]|Ha]; [by split|].
    split.
    + apply Hall in Ha as [Hn _]. intros Hd'. by apply Hn, dom_insert_subseteq.
    + by apply (resume_nested_destroyed _ _ _ _ _ _ Hown Hrun Ho).
  - destruct evs2 as [|ev evs2]; [done|]. exact Hlast.
  - pose proof (own_log_balance _ _ _ _ _ _ _ Hpre Hlog Ho) as Hbal.
    rewrite app_nil_r in Hbal. exact Hbal.
Qed.

Lemma frames_destroyed_once_witness :
  let '(r, _, _, evs) :=
    call Demo.empty_string (Demo.read_from_file Demo.unreadable "existing_file.txt") ∅ in
  destroyed_in 0 evs = 1 ∧ destroyed_in 1 evs = 1
  ∧ last evs = Some (EvDestroy (result_value_ r)).
Proof.
  destruct (call Demo.empty_string
              (Demo.read_from_file Demo.unreadable "existing_file.txt") ∅)
    as [[[r o] h'] evs] eqn:Hcall.
  destruct (frames_destroyed_once _ _ _ _ _ _ _ Hcall) as (Hall & _ & Hlast & _).
  - vm_compute in Hcall. by injection Hcall as <- <- <- <-.
  - split; [|split; [|exact Hlast]].
    + apply Hall. vm_compute in Hcall. injection Hcall as <- <- <- <-.
      apply list_elem_of_here.
    + apply Hall. vm_compute in Hcall. injection Hcall as <- <- <- <-.
      apply list_elem_of_further, list_elem_of_here.
Defined.

Lemma call_carrier {T} (T_init : T) (body : coro T)
    (h : gmap addr (expected T)) r o h' evs :
  call T_init body h = (r, o, h', evs) →
  ∃ x, observe r h' = Some x.
Proof.
  intros Hcall. apply call_log in Hcall as (evs2 & pre & -> & Hpre & Hlog).
  apply own_log_writes in Hlog; [|done].
  rewrite lookup_insert_eq in Hlog. rewrite observe_lookup.
  destruct o as [y| | |];
    [destruct Hlog as [_ ->]|destruct Hlog as (e & _ & ->)
    |destruct Hlog as [_ ->]|destruct Hlog as [_ ->]]; eauto.
Qed.

(** X5.  The carrier a call returns never dangles, and what it shows
    follows how the frame ended: the returned value or error after a
    [co_return], an error after a propagation, and the value-initialised
    payload after a swallowed exception.  So it tests true exactly when
    the frame returned a value or swallowed an exception. *)
Theorem carrier_after_call {T} (T_init : T) (body : coro T)
    (h : gmap addr (expected T)) r o h' evs :
  call T_init body h = (r, o, h', evs) →
  ∃ x, observe r h' = Some x
       ∧ Result.operator_bool r h' = Some (has_value x)
       ∧ match o with
         | Returned y => x = y
         | Suspended => has_value x = false
         | Faulted | Undefined => x = Value T_init
         end.
Proof.
  intros Hcall. apply call_log in Hcall as (evs2 & pre & -> & Hpre & Hlog).
  apply own_log_writes in Hlog; [|done].
  rewrite lookup_insert_eq in Hlog.
  assert (Hgo : ∀ x, h' !! result_value_ r = Some x →
            observe r h' = Some x ∧ Result.operator_bool r h' = Some (has_value x)).
  { intros x Hx. rewrite observe_lookup. unfold Result.operator_bool. by rewrite Hx. }
  destruct o as [y| | |].
  - destruct Hlog as [_ Hcell]. exists y. by destruct (Hgo _ Hcell).
  - destruct Hlog as (e & _ & Hcell). exists (Unexpected e). by destruct (Hgo _ Hcell).
  - destruct Hlog as [_ Hcell]. exists (Value T_init). by destruct (Hgo _ Hcell).
  - destruct Hlog as [_ Hcell]. exists (Value T_init). by destruct (Hgo _ Hcell).
Qed.

Lemma carrier_after_call_witness :
  let '(r, _, h', _) :=
    call Demo.empty_string (Demo.read_from_file Demo.missing "existing_file.txt") ∅ in
  ∃ x, observe r h' = Some x ∧ has_value x = false.
Proof.
  destruct (call Demo.empty_string
              (Demo.read_from_file Demo.missing "existing_file.txt") ∅)
    as [[[r o] h'] evs] eqn:Hcall.
  destruct (carrier_after_call _ _ _ _ _ _ _ Hcall) as (x & Hx & _ & Ho).
  exists x. split; [exact Hx|].
  vm_compute in Hcall. injection Hcall as <- <- <- <-. exact Ho.
Defined.

(** X6.  A call gives its frame a cell no earlier carrier refers to, and
    leaves every cell that existed before it as it was: carriers obtained
    from earlier calls show the same content after the call as before. *)
Theorem call_preserves_carriers {T} (T_init : T) (body : coro T)
    (h : gmap addr (expected T)) r o h' evs (r0 : result) :
  call T_init body h = (r, o, h', evs) →
  result_value_ r0 ∈ dom h →
  result_value_ r ≠ result_value_ r0
  ∧ observe r0 h' = observe r0 h
  ∧ writes_to (result_value_ r0) evs = [].
Proof.
  intros Hcall Hr0.
  apply call_inv in Hcall as (evs2 & Hfresh & Hin & -> & Hrun).
  assert (Hne : result_value_ r0 ≠ result_value_ r) by (intros Heq; by rewrite Heq in Hr0).
  split; [done|].
  apply resume_foreign in Hrun as [_ Hfor].
  destruct (Hfor (result_value_ r0)) as [Hcell Hev];
    [by apply dom_insert_subseteq | done |].
  rewrite lookup_insert_ne in Hcell by done.
  split; [by rewrite !observe_lookup|].
  apply foreign_silent in Hev as [_ Hev].
  apply body_part_quiet in Hev as [Hw _].
  change (EvAlloc (result_value_ r) :: evs2)
    with ([EvAlloc (T:=T) (result_value_ r)] ++ evs2).
  by rewrite writes_to_app, Hw.
Qed.

Lemma call_preserves_carriers_witness :
  let h : gmap addr (expected Demo.value) := {[0 := Unexpected 7%Z]} in
  let '(r, _, h', _) :=
    call Demo.empty_string (Demo.read_from_file Demo.present "existing_file.txt") h in
  result_value_ r ≠ 0 ∧ observe (mk_result 0) h' = Some (Unexpected 7%Z).
Proof.
  simpl.
  destruct (call Demo.empty_string
              (Demo.read_from_file Demo.present "existing_file.txt")
              ({[0 := Unexpected 7%Z]} : gmap addr (expected Demo.value)))
    as [[[r o] h'] evs] eqn:Hcall.
  destruct (call_preserves_carriers _ _ _ _ _ _ _ (mk_result 0) Hcall)
    as (Hne & Hobs & _).
  - vm_compute. reflexivity.
  - split; [exact Hne|]. rewrite Hobs. vm_compute. reflexivity.
Defined.

(** ** Awaiting a call, and stacks of such functions *)

Lemma call_eq {T} (T_init : T) body (h : gmap addr (expected T)) :
  call T_init body h
  = let a := fresh (dom h) in
    let '(o, h2, evs2) :=
      resume body (mk_handle (mk_promise a) []) (<[a := Value T_init]> h) in
    (mk_result a, o, h2, EvAlloc a :: evs2).
Proof.
  unfold call. simpl. by destruct (resume body _ _) as [[o h2] evs2].
Qed.

Lemma await_call_error {T} (T_init : T) (callee : coro T) (k : T → coro T)
    handle (h : gmap addr (expected T)) r o h1 evs1 e :
  call T_init callee h = (r, o, h1, evs1) →
  o ≠ Undefined →
  observe r h1 = Some (Unexpected e) →
  resume (await_call T_init callee k) handle h
  = (Suspended, <[frame_id handle := Unexpected e]> h1,
     evs1 ++ EvWrite (frame_id handle) (Unexpected e) :: handle_destroy handle).
Proof.
  intros Hcall Ho Hobs. rewrite observe_lookup in Hobs.
  unfold await_call. rewrite (invoke_after_call _ _ _ _ _ _ _ _ _ Hcall Ho).
  by rewrite (resume_await_error _ _ _ _ _ Hobs).
Qed.

Lemma await_call_value {T} (T_init : T) (callee : coro T) (k : T → coro T)
    handle (h : gmap addr (expected T)) r o h1 evs1 v :
  call T_init callee h = (r, o, h1, evs1) →
  o ≠ Undefined →
  observe r h1 = Some (Value v) →
  resume (await_call T_init callee k) handle h
  = let '(o3, h3, evs3) := resume (k v) handle h1 in (o3, h3, evs1 ++ evs3).
Proof.
  intros Hcall Ho Hobs. rewrite observe_lookup in Hobs.
  unfold await_call. rewrite (invoke_after_call _ _ _ _ _ _ _ _ _ Hcall Ho).
  by rewrite (resume_await_value _ _ _ _ _ Hobs).
Qed.

(** X7.  [co_await f(...)]: the callee runs to its end first; then, if its
    carrier shows an error, the awaiting frame gets exactly that error in
    its own cell and is destroyed without running what follows, and if it
    shows a value the frame goes on with that value.  The callee's events
    come before anything the awaiting frame does about the result. *)
Theorem await_call_forwards {T} (T_init : T) (callee : coro T) (k : T → coro T)
    handle (h : gmap addr (expected T)) r o h1 evs1 :
  call T_init callee h = (r, o, h1, evs1) →
  o ≠ Undefined →
  ∃ x, observe r h1 = Some x
       ∧ resume (await_call T_init callee k) handle h
         = match x with
           | Unexpected e =>
               (Suspended, <[frame_id handle := Unexpected e]> h1,
                evs1 ++ EvWrite (frame_id handle) (Unexpected e)
                          :: handle_destroy handle)
           | Value v =>
               let '(o3, h3, evs3) := resume (k v) handle h1 in
               (o3, h3, evs1 ++ evs3)
           end.
Proof.
  intros Hcall Ho.
  destruct (call_carrier _ _ _ _ _ _ _ Hcall) as (x & Hobs).
  exists x. split; [done|]. destruct x as [v|e].
  - by apply (await_call_value _ _ _ _ _ r o).
  - by apply (await_call_error _ _ _ _ _ r o).
Qed.

Lemma await_call_forwards_witness :
  ∃ h' evs,
    resume (await_call Demo.nullptr (Demo.open_file Demo.missing "f" "r")
              (λ file, effect 1 (co_return (Value file))))
      (mk_handle (mk_promise 0) [5]) {[0 := Value Demo.empty_string]}
    = (Suspended, h', evs)
    ∧ h' !! 0 = Some (Unexpected 2%Z).
Proof.
  destruct (call Demo.nullptr (Demo.open_file Demo.missing "f" "r")
              ({[0 := Value Demo.empty_string]} : gmap addr (expected Demo.value)))
    as [[[r o] h1] evs1] eqn:Hcall.
  destruct (await_call_forwards Demo.nullptr (Demo.open_file Demo.missing "f" "r")
              (λ file, effect 1 (co_return (Value file)))
              (mk_handle (mk_promise 0) [5]) _ _ _ _ _ Hcall) as (x & Hobs & Hrun).
  - vm_compute in Hcall. by injection Hcall as <- <- <- <-.
  - rewrite Hrun. vm_compute in Hcall. injection Hcall as <- <- <- <-.
    vm_compute in Hobs. injection Hobs as <-.
    eexists _, _. split; [reflexivity|]. vm_compute. reflexivity.
Defined.

(** X8.  Through a stack of any depth of functions that each await the
    next and return what they get, the innermost result reaches the
    outermost caller unchanged: a value comes back as that value with
    the outermost frame completed, and an error code comes back as the
    same code with the outermost frame destroyed by propagation (or, at
    depth 0, completed with the error). *)
Theorem chain_propagates {T} (inits : list T) (T_init : T) (x : expected T)
    (h : gmap addr (expected T)) :
  ∃ r o h' evs,
    call T_init (chain inits (co_return x)) h = (r, o, h', evs)
    ∧ observe r h' = Some x
    ∧ terminal_of o
      = Some (match x, inits with
              | Value _, _ => CompletedWithValue
              | Unexpected _, [] => CompletedWithError
              | Unexpected _, _ :: _ => DestroyedOnPropagatedError
              end).
Proof.
  revert T_init h. induction inits as [|T_in inits IH]; intros T_init h.
  - rewrite call_eq. simpl. eexists _, _, _, _. split; [reflexivity|].
    rewrite observe_lookup. simpl. rewrite lookup_insert_eq.
    split; [done|]. by destruct x.
  - rewrite call_eq. simpl chain. cbv zeta.
    set (b := fresh (dom h)). set (h0 := <[b := Value T_init]> h).
    destruct (IH T_in h0) as (r1 & o1 & h1 & evs1 & Hcall & Hobs & Hterm).
    assert (Ho1 : o1 ≠ Undefined) by (intros ->; by destruct x, inits).
    destruct x as [v|e].
    + rewrite (await_call_value _ _ _ _ _ _ _ _ _ _ Hcall Ho1 Hobs). simpl.
      eexists _, _, _, _. split; [reflexivity|].
      rewrite observe_lookup. simpl. by rewrite lookup_insert_eq.
    + rewrite (await_call_error _ _ _ _ _ _ _ _ _ _ Hcall Ho1 Hobs).
      eexists _, _, _, _. split; [reflexivity|].
      rewrite observe_lookup. simpl. unfold frame_id. simpl.
      by rewrite lookup_insert_eq.
Qed.

(** ** Strings and the read loop *)

Lemma string_app_nil_r (s : string) : s +:+ "" = s.
Proof. induction s as [|c s IH]; [done|]. exact (f_equal (String c) IH). Qed.

Lemma string_app_assoc (s1 s2 s3 : string) : (s1 +:+ s2) +:+ s3 = s1 +:+ s2 +:+ s3.
Proof. induction s1 as [|c s1 IH]; [done|]. exact (f_equal (String c) IH). Qed.

Lemma substring_stored (chunk rest : string) :
  String.substring 0 (String.length chunk) (chunk +:+ rest) = chunk.
Proof.
  induction chunk as [|c chunk IH].
  - by destruct rest.
  - exact (f_equal (String c) IH).
Qed.

Lemma until_empty_all (script : list string) :
  Forall (λ chunk, 0 < String.length chunk) script →
  ReadLoop.until_empty script = script.
Proof.
  induction 1 as [|chunk script Hc _ IH]; [done|].
  simpl. rewrite bool_decide_eq_true_2 by done. by rewrite IH.
Qed.

(** What the read loop leaves in [target]. *)
Lemma read_loop_fst (script : list string) (buffer target : string) :
  (ReadLoop.read_loop script buffer target).1
  = target +:+ foldr String.append "" (ReadLoop.until_empty script).
Proof.
  revert buffer target.
  induction script as [|chunk script IH]; intros buffer target; simpl.
  - by rewrite string_app_nil_r.
  - destruct (bool_decide (0 < String.length chunk)); simpl.
    + by rewrite IH, substring_stored, string_app_assoc.
    + by rewrite string_app_nil_r.
Qed.

(** ** The usage example, for every answer of the C library *)

Lemma uint64_of_range z : (0 ≤ uint64_of z < 2 ^ 64)%Z.
Proof. unfold uint64_of. apply Z.mod_pos_bound. done. Qed.

Lemma uint64_of_small z : (0 ≤ z < 2 ^ 64)%Z → uint64_of z = z.
Proof. unfold uint64_of. apply Z.mod_small. Qed.

Lemma open_file_run (w : Demo.world) (file_name mode : string)
    (h : gmap addr (expected Demo.value)) :
  let a := fresh (dom h) in
  let x := match Demo.fopen w file_name mode with
           | Some file => Value (Demo.VFile file)
           | None => Unexpected (uint64_of (Demo.errno w))
           end in
  call Demo.nullptr (Demo.open_file w file_name mode) h
  = (mk_result a, Returned x, <[a := x]> h, [EvAlloc a; EvWrite a x; EvDestroy a]).
Proof.
  simpl. rewrite call_eq. unfold Demo.open_file. simpl.
  destruct (Demo.fopen w file_name mode) as [file|]; simpl;
    by rewrite insert_insert_eq.
Qed.

(** X9.  [open_file] completes at once in every case, in a frame of its
    own on a new cell, with no automatic object and nothing after the
    [co_return]: its carrier shows the stream when [fopen] gave one, and
    otherwise [errno] as a [uint64_t], that is [errno] itself when it is
    not negative and [errno + 2^64] when it is. *)
Theorem open_file_carrier (w : Demo.world) (file_name mode : string)
    (h : gmap addr (expected Demo.value)) :
  let a := fresh (dom h) in
  let x := match Demo.fopen w file_name mode with
           | Some file => Value (Demo.VFile file)
           | None => Unexpected (uint64_of (Demo.errno w))
           end in
  call Demo.nullptr (Demo.open_file w file_name mode) h
  = (mk_result a, Returned x, <[a := x]> h, [EvAlloc a; EvWrite a x; EvDestroy a])
  ∧ (a ∉ dom h)
  ∧ (Demo.fopen w file_name mode = None →
     (0 ≤ uint64_of (Demo.errno w) < 2 ^ 64)%Z
     ∧ ((0 ≤ Demo.errno w < 2 ^ 64)%Z → uint64_of (Demo.errno w) = Demo.errno w)
     ∧ ((- 2 ^ 64 ≤ Demo.errno w < 0)%Z →
        uint64_of (Demo.errno w) = (Demo.errno w + 2 ^ 64)%Z)).
Proof.
  cbv zeta. split; [apply open_file_run|]. split; [apply is_fresh|].
  intros _. split; [apply uint64_of_range|]. split; [apply uint64_of_small|].
  intros Hneg. unfold uint64_of.
  rewrite <- (Z.mod_add _ 1) by done. apply Z.mod_small. lia.
Qed.

Lemma open_file_carrier_witness :
  uint64_of (Demo.errno (Demo.mk_world (λ _ _, None) (-1) (λ _, []) (λ _, 0%Z) ""))
  = 18446744073709551615%Z.
Proof.
  destruct (open_file_carrier (Demo.mk_world (λ _ _, None) (-1) (λ _, []) (λ _, 0%Z) "")
              "f" "r" ∅) as (_ & _ & Hcode).
  destruct Hcode as (_ & _ & Hneg); [reflexivity|].
  rewrite Hneg; [reflexivity|]. simpl. lia.
Defined.

(** The whole run of [read_from_file]: the store and the log it leaves. *)
Lemma read_from_file_run (w : Demo.world) (file_name : string)
    (h : gmap addr (expected Demo.value)) :
  let b := fresh (dom h) in
  let h0 := <[b := Value Demo.empty_string]> h in
  let a := fresh (dom h0) in
  call Demo.empty_string (Demo.read_from_file w file_name) h
  = match Demo.fopen w file_name "r" with
    | None =>
        let e := Unexpected (uint64_of (Demo.errno w)) in
        (mk_result b, Suspended, <[b := e]> (<[a := e]> h0),
         [EvAlloc b; EvAlloc a; EvWrite a e; EvDestroy a; EvWrite b e; EvDestroy b])
    | Some file =>
        let y := if decide (Demo.ferror w file = 0%Z)
                 then Value (Demo.VString
                               (foldr String.append ""
                                  (ReadLoop.until_empty (Demo.fread w file))))
                 else Unexpected (uint64_of (Demo.ferror w file)) in
        (mk_result b, Returned y, <[b := y]> (<[a := Value (Demo.VFile file)]> h0),
         [EvAlloc b; EvAlloc a; EvWrite a (Value (Demo.VFile file)); EvDestroy a;
          EvConstruct b Demo.target; EvWrite b y; EvRelease b Demo.target;
          EvDestroy b])
    end.
Proof.
  cbv zeta. rewrite call_eq. cbv zeta.
  set (b := fresh (dom h)). set (h0 := <[b := Value Demo.empty_string]> h).
  pose proof (open_file_run w file_name "r" h0) as Hopen.
  cbv zeta in Hopen. set (a := fresh (dom h0)) in *.
  change (Demo.read_from_file w file_name)
    with (await_call Demo.nullptr (Demo.open_file w file_name "r")
            (λ file, automatic Demo.target (
               let target_value :=
                 (ReadLoop.read_loop (Demo.fread w (Demo.as_file file))
                    (Demo.buffer w) "").1 in
               let error := Demo.ferror w (Demo.as_file file) in
               if decide (error = 0%Z)
               then co_return (Value (Demo.VString target_value))
               else co_return (Unexpected (uint64_of error))))).
  destruct (Demo.fopen w file_name "r") as [file|].
  - rewrite (await_call_value _ _ _ _ _ _ _ _ _ (Demo.VFile file) Hopen);
      [|done|by rewrite observe_lookup; apply lookup_insert_eq].
    cbv zeta. simpl Demo.as_file. rewrite read_loop_fst.
    change ("" +:+ ?s) with s.
    by destruct (decide (Demo.ferror w file = 0%Z)).
  - by rewrite (await_call_error _ _ _ _ _ _ _ _ _ (uint64_of (Demo.errno w)) Hopen);
      [|done|by rewrite observe_lookup; apply lookup_insert_eq].
Qed.

(** X10.  [read_from_file], for every answer of the C library.  When the
    file cannot be opened its carrier shows exactly the code [open_file]
    produced, the frame is destroyed at the await, and none of the read
    logic runs: [target] is never constructed and the answers of [fread]
    and [ferror] play no part.  When it can be opened the frame completes:
    with the concatenation of the chunks [fread] stored up to its first
    empty read if [ferror] is 0, and with [ferror]'s code as a [uint64_t]
    otherwise, whatever was read; either way [target] is constructed once
    and released once. *)
Theorem read_from_file_carrier (w : Demo.world) (file_name : string)
    (h : gmap addr (expected Demo.value)) :
  ∃ r o h' evs,
    call Demo.empty_string (Demo.read_from_file w file_name) h = (r, o, h', evs)
    ∧ match Demo.fopen w file_name "r" with
      | None =>
          observe r h' = Some (Unexpected (uint64_of (Demo.errno w)))
          ∧ o = Suspended
          ∧ constructed_in (result_value_ r) evs = []
      | Some file =>
          observe r h'
          = Some (if decide (Demo.ferror w file = 0%Z)
                  then Value (Demo.VString
                                (foldr String.append ""
                                  (ReadLoop.until_empty (Demo.fread w file))))
                  else Unexpected (uint64_of (Demo.ferror w file)))
          ∧ (∃ y, o = Returned y)
          ∧ constructed_in (result_value_ r) evs = [Demo.target]
          ∧ released_in (result_value_ r) evs = [Demo.target]
      end.
Proof.
  pose proof (read_from_file_run w file_name h) as Hrun. cbv zeta in Hrun.
  set (b := fresh (dom h)) in *.
  destruct (Demo.fopen w file_name "r") as [file|];
    eexists _, _, _, _; (split; [exact Hrun|]);
    rewrite observe_lookup; simpl; rewrite lookup_insert_eq.
  - split; [done|]. split; [eauto|].
    unfold constructed_in, released_in. simpl.
    by rewrite !(decide_True (P:=b = b)) by done.
  - by repeat split.
Qed.

(** X11.  What [main] prints, for every answer of the C library: the
    error code when the file cannot be opened or a read failed, the
    content otherwise.  It uses [operator*] and [error()] on the carrier
    only under the matching test, so it never throws and never has
    undefined behaviour. *)
Theorem main_prints (w : Demo.world) :
  Demo.main w
  = Some (match Demo.fopen w "existing_file.txt" "r" with
          | None => Unexpected (uint64_of (Demo.errno w))
          | Some file =>
              if decide (Demo.ferror w file = 0%Z)
              then Value (Demo.VString (foldr String.append ""
                                  (ReadLoop.until_empty (Demo.fread w file))))
              else Unexpected (uint64_of (Demo.ferror w file))
          end).
Proof.
  unfold Demo.main.
  pose proof (read_from_file_run w "existing_file.txt" ∅) as Hrun.
  cbv zeta in Hrun. rewrite Hrun.
  destruct (Demo.fopen w "existing_file.txt" "r") as [file|];
    rewrite observe_lookup; simpl; by rewrite lookup_insert_eq.
Qed.

(** ** The read loop *)

(** X12.  The read loop leaves in [target] what it held before, followed
    by the chunks the successive [fread] calls stored, in order, up to the
    first call that stored nothing; chunks after that are not read.  What
    [buffer] held before the loop, and what an earlier longer chunk left
    behind in it, never reaches [target].  When every chunk of the script
    is non-empty this is the concatenation [read_from_file] returns. *)
Theorem read_loop_target (script : list string) (buffer target : string) :
  (ReadLoop.read_loop script buffer target).1
  = target +:+ foldr String.append "" (ReadLoop.until_empty script)
  ∧ (∀ buffer', (ReadLoop.read_loop script buffer' target).1
                = (ReadLoop.read_loop script buffer target).1)
  ∧ (Forall (λ chunk, 0 < String.length chunk) script →
     (ReadLoop.read_loop script buffer "").1 = foldr String.append "" script).
Proof.
  assert (Hmain : ∀ script buffer target,
            (ReadLoop.read_loop script buffer target).1
            = target +:+ foldr String.append "" (ReadLoop.until_empty script)).
  { clear. induction script as [|chunk script IH]; intros buffer target; simpl.
    - by rewrite string_app_nil_r.
    - destruct (bool_decide (0 < String.length chunk)); simpl.
      + by rewrite IH, substring_stored, string_app_assoc.
      + by rewrite string_app_nil_r. }
  split; [apply Hmain|]. split.
  - intros buffer'. by rewrite !Hmain.
  - intros Hall. by rewrite Hmain, until_empty_all.
Qed.

Example read_loop_stale_buffer :
  ReadLoop.read_loop ["abcd"; "e"; ""; "zz"] "????" "" = ("abcde", "ebcd").
Proof. vm_compute. reflexivity. Qed.

(** X13.  A frame that tests the carrier of a call instead of awaiting it
    is never destroyed by the callee's error: it goes on with what the
    carrier shows, value or error code, in the store the callee left, and
    the test itself writes nothing and emits nothing. *)
Theorem inspect_after_call {T} (T_init : T) (callee : coro T)
    (k : expected T → coro T) handle (h : gmap addr (expected T)) r o h1 evs1 :
  call T_init callee h = (r, o, h1, evs1) →
  o ≠ Undefined →
  ∃ x, observe r h1 = Some x
       ∧ resume (invoke T_init callee (λ awaited, inspect awaited k)) handle h
         = let '(o3, h3, evs3) := resume (k x) handle h1 in (o3, h3, evs1 ++ evs3).
Proof.
  intros Hcall Ho.
  destruct (call_carrier _ _ _ _ _ _ _ Hcall) as (x & Hobs).
  exists x. split; [done|].
  rewrite (invoke_after_call _ _ _ _ _ _ _ _ _ Hcall Ho). simpl. by rewrite Hobs.
Qed.

Lemma inspect_after_call_witness :
  (resume (invoke Demo.nullptr (Demo.open_file Demo.missing "f" "r")
             (λ awaited, inspect awaited (λ x,
                match x with
                | Value file => co_return (Value file)
                | Unexpected _ => co_return (Value (Demo.VString "fallback"))
                end)))
     (mk_handle (mk_promise 0) []) {[0 := Value Demo.empty_string]}).1.1
  = Returned (Value (Demo.VString "fallback")).
Proof.
  destruct (call Demo.nullptr (Demo.open_file Demo.missing "f" "r")
              ({[0 := Value Demo.empty_string]} : gmap addr (expected Demo.value)))
    as [[[r o] h1] evs1] eqn:Hcall.
  destruct (inspect_after_call Demo.nullptr (Demo.open_file Demo.missing "f" "r")
              (λ x, match x with
                    | Value file => co_return (Value file)
                    | Unexpected _ => co_return (Value (Demo.VString "fallback"))
                    end)
              (mk_handle (mk_promise 0) []) _ _ _ _ _ Hcall) as (x & Hobs & Hrun).
  - vm_compute in Hcall. by injection Hcall as <- <- <- <-.
  - rewrite Hrun. vm_compute in Hcall. injection Hcall as <- <- <- <-.
    vm_compute in Hobs. injection Hobs as <-. reflexivity.
Defined.
